(** * synth-recipes: a monophonic sine synthesizer

    A shallow embedding of [juce/Source/PluginProcessor.cpp] (the JUCE
    plug-in) and of [cli/main.cpp] (the offline renderer), together with
    the properties of the engine: block splitting at MIDI time stamps,
    the output guard, the oscillator and envelope invariants, the note
    life cycle and the layout of the WAV file.

    Numbers are modelled as the code has them.  A C++ [double] is an
    IEEE-754 binary64 value and a [float] a binary32 value, both written
    as [spec_float] (the Standard Library's executable specification of
    IEEE arithmetic, round-to-nearest-even, gradual underflow, a single
    NaN).  An [int] is a [Z] reduced to 32 bits after every operation,
    [uint32_t] a [Z] modulo [2^32], and a byte is a [Byte.byte]; integers
    are stored least significant byte first.  The conversion of a
    [double] to an integer type is partial: it has no result when the
    integer part of the number is not a value of the type.  The functions [std::sin]
    and [std::exp2] of the C++ library are not part of the repository;
    they are the two fields of the class [Libm].

    The file has three parts: the two sources, function by function;
    the definitions in which the properties are stated; and the
    properties with their proofs, preceded by the facts about IEEE
    comparisons and rounding they rest on. *)

From Stdlib Require Import ZArith List Bool Lia.
From Stdlib Require Import Init.Byte.
From Stdlib Require Strings.Byte.
From Stdlib Require Import Floats.
Import ListNotations.
Local Open Scope Z_scope.

#[local] Set Warnings "-inexact-float".

(** ** IEEE-754 values and the conversions of the C++ code *)

Definition double := spec_float.
Definition float32 := spec_float.

Definition fadd : double -> double -> double := SF64add.
Definition fsub : double -> double -> double := SF64sub.
Definition fmul : double -> double -> double := SF64mul.
Definition fdiv : double -> double -> double := SF64div.

(** The comparisons of C++ on floating-point operands; each is false as
    soon as one operand is NaN. *)
Definition flt (x y : spec_float) : bool := SFltb x y.
Definition fle (x y : spec_float) : bool := SFleb x y.
Definition fgt (x y : spec_float) : bool := SFltb y x.
Definition fge (x y : spec_float) : bool := SFleb y x.
Definition feq (x y : spec_float) : bool := SFeqb x y.

Definition isnan (x : spec_float) : bool :=
  match x with S754_nan => true | _ => false end.

Definition isinf (x : spec_float) : bool :=
  match x with S754_infinity _ => true | _ => false end.

(** [static_cast<float>(x)] for a double [x]: rounding to binary32. *)
Definition float_of_double (x : double) : float32 :=
  match x with
  | S754_finite s m e => binary_round 24 128 s m e
  | _ => x
  end.

(** The implicit widening of a [float] operand to [double] (exact). *)
Definition double_of_float (x : float32) : double :=
  match x with
  | S754_finite s m e => binary_round prec emax s m e
  | _ => x
  end.

(** The conversion of an integer to [double]. *)
Definition double_of_int (z : Z) : double := binary_normalize prec emax z 0 false.

(** The integer part of a finite double, rounded toward zero; NaN and
    the infinities have none. *)
Definition trunc_double (x : double) : option Z :=
  match x with
  | S754_zero _ => Some 0
  | S754_finite s m (Zneg k) => Some (cond_Zopp s (Zpos m / 2 ^ Zpos k))
  | S754_finite s m e => Some (cond_Zopp s (Zpos m * 2 ^ e))
  | S754_infinity _ | S754_nan => None
  end.

(** [static_cast<T>(x)] of a double to an integer type [T] with the
    values [lo .. hi]: the integer part of [x].  The language leaves the
    conversion undefined when the integer part is not a value of [T],
    and for NaN and the infinities: [None]. *)
Definition static_cast_to (lo hi : Z) (x : double) : option Z :=
  match trunc_double x with
  | Some z => if (lo <=? z) && (z <=? hi) then Some z else None
  | None => None
  end.

Definition int_of_double : double -> option Z := static_cast_to (- 2 ^ 31) (2 ^ 31 - 1).
Definition int16_of_double : double -> option Z := static_cast_to (- 2 ^ 15) (2 ^ 15 - 1).
Definition uint32_of_double : double -> option Z := static_cast_to 0 (2 ^ 32 - 1).

(** Two's-complement reduction to [w] bits, and reduction modulo [2^w]. *)
Definition swrap (w z : Z) : Z := (z + 2 ^ (w - 1)) mod 2 ^ w - 2 ^ (w - 1).
Definition uwrap (w z : Z) : Z := z mod 2 ^ w.

Definition int_of (z : Z) : Z := swrap 32 z.
Definition uint32_of (z : Z) : Z := uwrap 32 z.

Definition byte_val (b : byte) : Z := Z.of_N (Strings.Byte.to_N b).

Definition byte_of_Z (z : Z) : byte :=
  match Strings.Byte.of_N (Z.to_N (uwrap 8 z)) with
  | Some b => b
  | None => x00
  end.

(** Literals of the sources.  A decimal literal denotes the nearest
    binary64 value, as in C++. *)
Definition d0_0 : double := S754_zero false.
Definition d1_0 : double := Eval vm_compute in Prim2SF 1.0.
Definition d0_5 : double := Eval vm_compute in Prim2SF 0.5.
Definition d12_0 : double := Eval vm_compute in Prim2SF 12.0.
Definition d127_0 : double := Eval vm_compute in Prim2SF 127.0.
Definition d440_0 : double := Eval vm_compute in Prim2SF 440.0.
Definition d32767_0 : double := Eval vm_compute in Prim2SF 32767.0.
Definition dm1_0 : double := Eval vm_compute in Prim2SF (-1.0).

Definition f0_0 : float32 := S754_zero false.
Definition f1_0 : float32 := Eval vm_compute in float_of_double (Prim2SF 1.0).
Definition fm1_0 : float32 := Eval vm_compute in float_of_double (Prim2SF (-1.0)).
Definition f2_0 : float32 := Eval vm_compute in float_of_double (Prim2SF 2.0).
Definition fm2_0 : float32 := Eval vm_compute in float_of_double (Prim2SF (-2.0)).

Definition PI : double :=
  Eval vm_compute in Prim2SF 3.14159265358979323846264338327950288.
Definition TWO_PI : double :=
  Eval vm_compute in Prim2SF 6.28318530717958647692528676655900576.
Definition SQRT2 : double :=
  Eval vm_compute in Prim2SF 1.41421356237309504880168872420969808.

(** The functions of [<cmath>] the sources call. *)
Class Libm := {
  sin : double -> double;
  exp2 : double -> double
}.

(** ** juce/Source/PluginProcessor.cpp *)

Module Plugin.

(** [#define ENABLE_ENVELOPE] *)
Definition ENABLE_ENVELOPE : bool := true.

(** The data members of [SynthAudioProcessor] (PluginProcessor.h). *)
Record Processor := mkProcessor {
  sampleRate : double;
  activeNote : Z;
  frequency : double;
  amplitude : double;
  env : double;
  envSlope : double;
  phase : double;
  inc : double
}.

Definition set_sampleRate (v : double) (p : Processor) : Processor :=
  mkProcessor v (activeNote p) (frequency p) (amplitude p) (env p) (envSlope p) (phase p) (inc p).
Definition set_activeNote (v : Z) (p : Processor) : Processor :=
  mkProcessor (sampleRate p) v (frequency p) (amplitude p) (env p) (envSlope p) (phase p) (inc p).
Definition set_frequency (v : double) (p : Processor) : Processor :=
  mkProcessor (sampleRate p) (activeNote p) v (amplitude p) (env p) (envSlope p) (phase p) (inc p).
Definition set_amplitude (v : double) (p : Processor) : Processor :=
  mkProcessor (sampleRate p) (activeNote p) (frequency p) v (env p) (envSlope p) (phase p) (inc p).
Definition set_env (v : double) (p : Processor) : Processor :=
  mkProcessor (sampleRate p) (activeNote p) (frequency p) (amplitude p) v (envSlope p) (phase p) (inc p).
Definition set_envSlope (v : double) (p : Processor) : Processor :=
  mkProcessor (sampleRate p) (activeNote p) (frequency p) (amplitude p) (env p) v (phase p) (inc p).
Definition set_phase (v : double) (p : Processor) : Processor :=
  mkProcessor (sampleRate p) (activeNote p) (frequency p) (amplitude p) (env p) (envSlope p) v (inc p).
Definition set_inc (v : double) (p : Processor) : Processor :=
  mkProcessor (sampleRate p) (activeNote p) (frequency p) (amplitude p) (env p) (envSlope p) (phase p) v.

(** The output buffer of one [processBlock] call: the left channel and,
    when the bus is stereo, the right one. *)
Record AudioBuffer := mkBuffer {
  left : list float32;
  right : option (list float32)
}.

Definition getNumSamples (b : AudioBuffer) : Z := Z.of_nat (length (left b)).

(** One entry of the [juce::MidiBuffer]: the time stamp within the block
    and the raw bytes of the message. *)
Record MidiMessageMetadata := mkMidi {
  samplePosition : Z;
  data : list byte
}.

Definition numBytes (m : MidiMessageMetadata) : Z := Z.of_nat (length (data m)).

(** [metadata.data[i]]; a byte past the end of the message reads as 0. *)
Definition data_at (m : MidiMessageMetadata) (i : nat) : byte := nth i (data m) x00.

(** What [DBG] prints in [protectYourEars]. *)
Inductive Warning :=
| NanSilencing
| InfSilencing
| RangeSilencing
| RangeClamping.

(** [const float attackTime = 0.01;] and [const float releaseTime = 0.01;]:
    the double literal is narrowed to [float]. *)
Definition attackTime : float32 := Eval vm_compute in float_of_double (Prim2SF 0.01).
Definition releaseTime : float32 := Eval vm_compute in float_of_double (Prim2SF 0.01).

Definition reset (p : Processor) : Processor :=
  set_inc d0_0 (set_phase d0_0 p).

Definition prepareToPlay (sampleRate_ : double) (p : Processor) : Processor :=
  reset (set_env d0_0 (set_activeNote 0 (set_sampleRate sampleRate_ p))).

Definition startSound (p : Processor) : Processor :=
  set_inc (fdiv (fmul (frequency p) TWO_PI) (sampleRate p)) p.

Definition noteOff (note : Z) (p : Processor) : Processor :=
  if activeNote p =? note then
    set_envSlope (fdiv dm1_0 (fmul (sampleRate p) (double_of_float releaseTime)))
      (set_activeNote 0 p)
  else p.

(** The loop of [protectYourEars] from sample [i] on: [None] when a
    sample asks for silence (the [memset] and [return]), otherwise the
    remaining samples after clamping; in both cases with what was
    printed. *)
Fixpoint protectLoop (buffer : list float32) (firstWarning : bool)
  : option (list float32) * list Warning :=
  match buffer with
  | [] => (Some [], [])
  | x :: rest =>
      if isnan x then (None, [NanSilencing])
      else if isinf x then (None, [InfSilencing])
      else if flt x fm2_0 || fgt x f2_0 then (None, [RangeSilencing])
      else if flt x fm1_0 then
        let '(r, log) := protectLoop rest false in
        (option_map (cons fm1_0) r, (if firstWarning then [RangeClamping] else []) ++ log)
      else if fgt x f1_0 then
        let '(r, log) := protectLoop rest false in
        (option_map (cons f1_0) r, (if firstWarning then [RangeClamping] else []) ++ log)
      else
        let '(r, log) := protectLoop rest firstWarning in
        (option_map (cons x) r, log)
  end.

(** [protectYourEars(buffer, sampleCount)] on the span of [sampleCount]
    samples that starts at [buffer]; [None] is the null pointer. *)
Definition protectYourEars (buffer : option (list float32))
  : option (list float32) * list Warning :=
  match buffer with
  | None => (None, [])
  | Some b =>
      match protectLoop b true with
      | (Some b', log) => (Some b', log)
      | (None, log) => (Some (repeat f0_0 (length b)), log)
      end
  end.

(** The samples of [channel] from [offset] on replaced by [span]. *)
Definition write_span (channel : list float32) (offset : Z) (span : list float32)
  : list float32 :=
  firstn (Z.to_nat offset) channel ++ span
    ++ skipn (Z.to_nat offset + length span) channel.

Definition store_span (channel : list float32) (offset : Z) (span : option (list float32))
  : list float32 :=
  match span with
  | Some s => write_span channel offset s
  | None => channel
  end.

Section WithLibm.
Context {libm : Libm}.

Definition processSample (p : Processor) : Processor * double :=
  let output := fmul (amplitude p) (sin (phase p)) in
  let ph := fadd (phase p) (inc p) in
  let ph := if fgt ph TWO_PI then fsub ph TWO_PI else ph in
  (set_phase ph p, output).

Definition noteOn (note velocity : Z) (p : Processor) : Processor :=
  let p := set_activeNote note p in
  let p := set_amplitude (fmul (fdiv (double_of_int velocity) d127_0) d0_5) p in
  let p := set_frequency
             (fmul d440_0
                (exp2 (fdiv (double_of_int (int_of (activeNote p - 69))) d12_0))) p in
  let p := set_envSlope (fdiv d1_0 (fmul (sampleRate p) (double_of_float attackTime))) p in
  startSound p.

Definition handleMIDI (data0 data1 data2 : byte) (p : Processor) : Processor :=
  match Z.land (byte_val data0) 0xF0 with
  | 0x80 => noteOff (byte_val data1) p
  | 0x90 =>
      let note := byte_val data1 in
      let velo := byte_val data2 in
      if 0 <? velo then noteOn note velo p else noteOff note p
  | _ => p
  end.

(** The body of the [for] loop of [render], up to the value of [output]. *)
Definition renderFrame (p : Processor) : Processor * double :=
  let output := d0_0 in
  if (0 <? activeNote p) || fgt (env p) (double_of_float f0_0) then
    let '(p, s) := processSample p in
    let output := fadd output s in
    if ENABLE_ENVELOPE then
      let e := fadd (env p) (envSlope p) in
      let e :=
        if fge e (double_of_float f1_0) then double_of_float f1_0
        else if fle e (double_of_float f0_0) then double_of_float f0_0
        else e in
      (set_env e p, fmul output e)
    else (p, output)
  else (p, output).

(** [sampleCount] iterations of that loop: the state after them and the
    values of [output], in order. *)
Fixpoint renderLoop (sampleCount : nat) (p : Processor) : Processor * list double :=
  match sampleCount with
  | O => (p, [])
  | S n =>
      let '(p, output) := renderFrame p in
      let '(p, outputs) := renderLoop n p in
      (p, output :: outputs)
  end.

(** [render(buffer, sampleCount, bufferOffset)]: every frame is written
    to the span of the left channel that starts at [bufferOffset] and,
    when there are two output channels, to the same span of the right
    channel; [protectYourEars] is then called on the left span and on
    the right span (the null pointer when there is one channel). *)
Definition render (sampleCount bufferOffset : Z) (st : Processor * AudioBuffer)
  : Processor * AudioBuffer :=
  let '(p, buffer) := st in
  let '(p, outputs) := renderLoop (Z.to_nat sampleCount) p in
  let span := map float_of_double outputs in
  let outputBufferLeft := Some span in
  let outputBufferRight := option_map (fun _ => span) (right buffer) in
  let outputBufferLeft := fst (protectYourEars outputBufferLeft) in
  let outputBufferRight := fst (protectYourEars outputBufferRight) in
  (p, mkBuffer (store_span (left buffer) bufferOffset outputBufferLeft)
        (option_map (fun r => store_span r bufferOffset outputBufferRight) (right buffer))).

End WithLibm.

(** [splitBufferByEvents], with the two member functions it calls as
    parameters: [render_ sampleCount bufferOffset] and
    [handleMIDI_ data0 data1 data2] act on the state [S] (the processor
    and the buffer). *)
Section SplitBuffer.
Context {S : Type}.
Variable render_ : Z -> Z -> S -> S.
Variable handleMIDI_ : byte -> byte -> byte -> S -> S.

(** The body of the range-[for] over [midiMessages]; the accumulator is
    [bufferOffset] and the state. *)
Definition splitStep (acc : Z * S) (metadata : MidiMessageMetadata) : Z * S :=
  let '(bufferOffset, s) := acc in
  let samplesThisSegment := int_of (samplePosition metadata - bufferOffset) in
  let '(bufferOffset, s) :=
    if 0 <? samplesThisSegment
    then (int_of (bufferOffset + samplesThisSegment),
          render_ samplesThisSegment bufferOffset s)
    else (bufferOffset, s) in
  if numBytes metadata <=? 3 then
    let data1 := if 2 <=? numBytes metadata then data_at metadata 1 else x00 in
    let data2 := if numBytes metadata =? 3 then data_at metadata 2 else x00 in
    (bufferOffset, handleMIDI_ (data_at metadata 0) data1 data2 s)
  else (bufferOffset, s).

(** The result is the state and the MIDI buffer, which is cleared. *)
Definition splitBufferByEventsWith (numSamples : Z)
    (midiMessages : list MidiMessageMetadata) (s : S)
  : S * list MidiMessageMetadata :=
  let '(bufferOffset, s) := fold_left splitStep midiMessages (0, s) in
  let samplesLastSegment := int_of (numSamples - bufferOffset) in
  (if 0 <? samplesLastSegment then render_ samplesLastSegment bufferOffset s else s,
   []).

End SplitBuffer.

Section WithLibm2.
Context {libm : Libm}.

Definition splitBufferByEvents (buffer : AudioBuffer)
    (midiMessages : list MidiMessageMetadata) (p : Processor)
  : (Processor * AudioBuffer) * list MidiMessageMetadata :=
  splitBufferByEventsWith render
    (fun data0 data1 data2 st => (handleMIDI data0 data1 data2 (fst st), snd st))
    (getNumSamples buffer) midiMessages (p, buffer).

Definition updateParameters (p : Processor) : Processor := p.

(** [processBlock]: the processor has no input bus, so every output
    channel is cleared first.  ([juce::ScopedNoDenormals] changes the
    floating-point mode of the processor for the duration of the call;
    the arithmetic here is that of the default IEEE mode.) *)
Definition processBlock (buffer : AudioBuffer)
    (midiMessages : list MidiMessageMetadata) (p : Processor)
  : (Processor * AudioBuffer) * list MidiMessageMetadata :=
  let cleared (c : list float32) := repeat f0_0 (length c) in
  let buffer := mkBuffer (cleared (left buffer)) (option_map cleared (right buffer)) in
  splitBufferByEvents buffer midiMessages (updateParameters p).

End WithLibm2.

End Plugin.

(** ** cli/main.cpp *)

Module Cli.

(** The global variables of the program. *)
Record Globals := mkGlobals {
  sampleRate : double;
  frequency : double;
  amplitude : double;
  lengthInSeconds : double;
  phase : double;
  inc : double
}.

Definition d48000 : double := Eval vm_compute in Prim2SF 48000.
Definition d261_63 : double := Eval vm_compute in Prim2SF 261.63.
Definition d10 : double := Eval vm_compute in Prim2SF 10.

(** Their values at program start: the four settings as initialised in
    the source, [phase] and [inc] zero-initialised. *)
Definition initial : Globals := mkGlobals d48000 d261_63 d0_5 d10 d0_0 d0_0.

Definition set_phase (v : double) (g : Globals) : Globals :=
  mkGlobals (sampleRate g) (frequency g) (amplitude g) (lengthInSeconds g) v (inc g).
Definition set_inc (v : double) (g : Globals) : Globals :=
  mkGlobals (sampleRate g) (frequency g) (amplitude g) (lengthInSeconds g) (phase g) v.

Definition reset (g : Globals) : Globals :=
  set_inc d0_0 (set_phase d0_0 g).

Definition startSound (g : Globals) : Globals :=
  set_inc (fdiv (fmul (frequency g) TWO_PI) (sampleRate g)) g.

(** [n] bytes of [z], least significant first: what [fwrite] stores for
    an [n]-byte integer on a little-endian machine. *)
Fixpoint le_bytes (n : nat) (z : Z) : list byte :=
  match n with
  | O => []
  | S k => byte_of_Z z :: le_bytes k (z / 256)
  end.

Definition RIFF : list byte := [x52; x49; x46; x46].
Definition WAVE : list byte := [x57; x41; x56; x45].
Definition fmt_ : list byte := [x66; x6d; x74; x20].
Definition data_ : list byte := [x64; x61; x74; x61].

Section WithLibm.
Context {libm : Libm}.

Definition processSample (g : Globals) : Globals * double :=
  let output := fmul (amplitude g) (sin (phase g)) in
  let ph := fadd (phase g) (inc g) in
  let ph := if fgt ph TWO_PI then fsub ph TWO_PI else ph in
  (set_phase ph g, output).

(** The first loop of [main]: [sampleCount] samples, each converted by
    [static_cast<int16_t>(output * 32767.0)]; an element is [None] where
    that conversion is undefined. *)
Fixpoint fillLoop (sampleCount : nat) (g : Globals) : Globals * list (option Z) :=
  match sampleCount with
  | O => (g, [])
  | S n =>
      let '(g, output) := processSample g in
      let s := int16_of_double (fmul output d32767_0) in
      let '(g, rest) := fillLoop n g in
      (g, s :: rest)
  end.

(** The samples of the buffer, if every one of them is defined. *)
Fixpoint defined (outputBuffer : list (option Z)) : option (list Z) :=
  match outputBuffer with
  | [] => Some []
  | Some s :: rest => option_map (cons s) (defined rest)
  | None :: _ => None
  end.

(** How a run of the program ends: with undefined behaviour (a
    conversion to an integer type that cannot hold the value, or the
    overflow of [sampleCount * 2] in [int]), by the
    exception [std::bad_array_new_length] that nothing catches (an array
    of negative length), or by [return] with an exit status and the
    bytes written to [output.wav], if the file was written. *)
Inductive Outcome :=
| Undefined
| Terminated
| Returned (status : Z) (file : option (list byte)).

(** [main]; [fopenOk] tells whether the file could be opened.  The
    allocation of an array of non-negative length is taken to succeed. *)
Definition main (fopenOk : bool) (g : Globals) : Outcome :=
  let g := startSound (reset g) in
  match int_of_double (fmul (sampleRate g) (lengthInSeconds g)) with
  | None => Undefined
  | Some sampleCount =>
      if sampleCount <? 0 then Terminated
      else
        let '(g, outputBuffer) := fillLoop (Z.to_nat sampleCount) g in
        match defined outputBuffer with
        | None => Undefined
        | Some outputBuffer =>
            if negb fopenOk then Returned (-1) None
            else if 2 ^ 31 <=? sampleCount * 2 then Undefined
            else
              let dataLength := uint32_of (sampleCount * 2) in
              let length := uint32_of (44 + dataLength) in
              let blockSize := 16 in
              let format := 1 in
              let channels := 1 in
              match uint32_of_double (sampleRate g) with
              | None => Undefined
              | Some srate =>
                  let bytesPerSecond := uint32_of (srate * 2) in
                  let bytesPerSample := 2 in
                  let bitsPerSample := 16 in
                  Returned 0
                    (Some (RIFF ++ le_bytes 4 length ++ WAVE ++ fmt_ ++ le_bytes 4 blockSize
                           ++ le_bytes 2 format ++ le_bytes 2 channels ++ le_bytes 4 srate
                           ++ le_bytes 4 bytesPerSecond ++ le_bytes 2 bytesPerSample
                           ++ le_bytes 2 bitsPerSample ++ data_ ++ le_bytes 4 dataLength
                           ++ flat_map (le_bytes 2) outputBuffer))
              end
        end
  end.

End WithLibm.

End Cli.

(** ** Definitions used to state the properties *)

(** A stand-in for the C library, to run the definitions on concrete
    inputs: the Taylor polynomial of degree five for [sin] and the
    constant 1 for [exp2].  No theorem below depends on what the two
    functions compute. *)
Definition d6_0 : double := Eval vm_compute in Prim2SF 6.0.
Definition d120_0 : double := Eval vm_compute in Prim2SF 120.0.

Definition sin_taylor (x : double) : double :=
  let x2 := fmul x x in
  let x3 := fmul x2 x in
  let x5 := fmul x3 x2 in
  fadd (fsub x (fdiv x3 d6_0)) (fdiv x5 d120_0).

Definition libm_example : Libm := {| sin := sin_taylor; exp2 := fun _ => d1_0 |}.

(** [0 <= x <= 1], as the comparisons of the code decide it. *)
Definition in_unit_interval (x : double) : bool := fle d0_0 x && fle x d1_0.

(** The magnitude of [x] exceeds [bound]. *)
Definition magnitude_exceeds (x bound : spec_float) : bool := fgt (SFabs x) bound.

(** The samples for which the output guard gives up the span: NaN,
    infinite, or of magnitude above 2.0. *)
Definition silences (x : float32) : bool :=
  isnan x || isinf x || magnitude_exceeds x f2_0.

(** Clamping of one sample to [-1.0, 1.0]. *)
Definition clamp (x : float32) : float32 :=
  if magnitude_exceeds x f1_0 then (if flt x f0_0 then fm1_0 else f1_0) else x.

(** Sample values used in examples. *)
Definition f0_25 : float32 := Eval vm_compute in float_of_double (Prim2SF 0.25).
Definition f1_5 : float32 := Eval vm_compute in float_of_double (Prim2SF 1.5).

(** A processor state used in examples: note 60 active, envelope level
    0.5 with slope 1.0, phase and increment both [PI]. *)
Definition p_example : Plugin.Processor :=
  Plugin.mkProcessor Cli.d48000 60 d440_0 d0_5 d0_5 d1_0 PI PI.

(** The settings of [cli/main.cpp] with a length of 0.0001 s, that is
    four samples. *)
Definition d0_0001 : double := Eval vm_compute in Prim2SF 0.0001.
Definition short_take : Cli.Globals :=
  Cli.mkGlobals Cli.d48000 Cli.d261_63 d0_5 d0_0001 d0_0 d0_0.

(** The same with an amplitude of a million, with a sample rate that is
    infinite, and with a length of minus one second. *)
Definition d1000000 : double := Eval vm_compute in Prim2SF 1000000.0.
Definition loud_take : Cli.Globals :=
  Cli.mkGlobals Cli.d48000 Cli.d261_63 d1000000 d0_0001 d0_0 d0_0.
Definition endless_take : Cli.Globals :=
  Cli.mkGlobals (S754_infinity false) Cli.d261_63 d0_5 d0_0001 d0_0 d0_0.
Definition negative_take : Cli.Globals :=
  Cli.mkGlobals Cli.d48000 Cli.d261_63 d0_5 dm1_0 d0_0 d0_0.

(** A block of four frames, mono, used in examples. *)
Definition block4 : Plugin.AudioBuffer := Plugin.mkBuffer [f0_0; f0_0; f0_0; f0_0] None.

Import Plugin.

(** The calls [splitBufferByEvents] makes to [render] and [handleMIDI]. *)
Inductive Action :=
| Render (sampleCount bufferOffset : Z)
| Midi (data0 data1 data2 : byte).

(** The calls made for a block of [numSamples] frames, in order: the
    source function run with handlers that record their arguments. *)
Definition calls (numSamples : Z) (midiMessages : list MidiMessageMetadata) : list Action :=
  fst (splitBufferByEventsWith
         (fun n offset log => log ++ [Render n offset])
         (fun data0 data1 data2 log => log ++ [Midi data0 data1 data2])
         numSamples midiMessages []).

(** One recorded call, made on a state through the given handlers. *)
Definition performWith {S : Type} (render_ : Z -> Z -> S -> S)
    (handleMIDI_ : byte -> byte -> byte -> S -> S) (s : S) (a : Action) : S :=
  match a with
  | Render n offset => render_ n offset s
  | Midi data0 data1 data2 => handleMIDI_ data0 data1 data2 s
  end.

Definition perform {libm : Libm} : Processor * AudioBuffer -> Action -> Processor * AudioBuffer :=
  performWith render
    (fun data0 data1 data2 st => (handleMIDI data0 data1 data2 (fst st), snd st)).

(** The MIDI effect of one event: the call of [handleMIDI] on its status
    and data bytes (absent data bytes read as 0); none for a message of
    more than three bytes. *)
Definition midi_effect (e : MidiMessageMetadata) : list Action :=
  if numBytes e <=? 3 then
    [Midi (data_at e 0)
       (if 2 <=? numBytes e then data_at e 1 else x00)
       (if numBytes e =? 3 then data_at e 2 else x00)]
  else [].

(** The scheduling algorithm in the words of the specification: keep a
    cursor; for each event, render [cursor, offset) when the offset
    exceeds the cursor and move the cursor there, then apply the event;
    at the end render [cursor, N) when it is not empty. *)
Fixpoint schedule (N cursor : Z) (events : list MidiMessageMetadata) : list Action :=
  match events with
  | [] => if cursor <? N then [Render (N - cursor) cursor] else []
  | e :: rest =>
      if cursor <? samplePosition e
      then Render (samplePosition e - cursor) cursor
             :: midi_effect e ++ schedule N (samplePosition e) rest
      else midi_effect e ++ schedule N cursor rest
  end.

(** The frames [from, from + count). *)
Definition frames (from : Z) (count : nat) : list Z :=
  map (fun k => from + Z.of_nat k) (seq 0 count).

(** The frames rendered by a list of calls, in the order of rendering. *)
Definition rendered_frames (acts : list Action) : list Z :=
  flat_map (fun a => match a with
                     | Render n offset => frames offset (Z.to_nat n)
                     | Midi _ _ _ => []
                     end) acts.

(** The [handleMIDI] calls among a list of calls. *)
Definition midi_calls (acts : list Action) : list Action :=
  filter (fun a => match a with Midi _ _ _ => true | Render _ _ => false end) acts.

(** The events are in time order, none before [cursor]. *)
Fixpoint time_ordered (cursor : Z) (events : list MidiMessageMetadata) : bool :=
  match events with
  | [] => true
  | e :: rest => (cursor <=? samplePosition e) && time_ordered (samplePosition e) rest
  end.

Definition status_nibble (data0 : byte) : Z := Z.land (byte_val data0) 0xF0.

(** The value of a little-endian byte string. *)
Fixpoint le_value (bs : list byte) : Z :=
  match bs with
  | [] => 0
  | b :: rest => byte_val b + 256 * le_value rest
  end.

(** The [n]-byte little-endian field at offset [offset] of a file. *)
Definition field (offset n : nat) (file : list byte) : Z :=
  le_value (firstn n (skipn offset file)).

(** The stream of values returned by [processSample] in [cli/main.cpp]. *)
Fixpoint outputs {libm : Libm} (n : nat) (g : Cli.Globals) : list double :=
  match n with
  | O => []
  | S k => let '(g', o) := Cli.processSample g in o :: outputs k g'
  end.



(** The result of a rounding carries the sign [s] (and is not NaN). *)
Definition has_sign (s : bool) (x : spec_float) : Prop :=
  match x with
  | S754_zero s' | S754_infinity s' | S754_finite s' _ _ => s' = s
  | S754_nan => False
  end.

(** The value [m * 2^e] in units of [2^emin], the smallest positive
    number of the format; an integer when [emin <= e]. *)
Definition ulps (prec emax m e : Z) : Z := m * 2 ^ (e - SpecFloat.emin prec emax).

(** [0 <= x <= 2 pi] and [0 <= x < 2 pi] for the constant [TWO_PI]. *)
Definition within_two_pi (x : double) : bool := fle d0_0 x && fle x TWO_PI.
Definition below_two_pi (x : double) : bool := fle d0_0 x && flt x TWO_PI.

(** The update of the phase in [processSample]. *)
Definition advance (ph increment : double) : double :=
  let ph := fadd ph increment in
  if fgt ph TWO_PI then fsub ph TWO_PI else ph.

(** The increment and clamp of the envelope level in [render]. *)
Definition envelope_step (level slope : double) : double :=
  let e := fadd level slope in
  if fge e (double_of_float f1_0) then double_of_float f1_0
  else if fle e (double_of_float f0_0) then double_of_float f0_0
  else e.

(** A sample of magnitude at most 1.0. *)
Definition in_range (x : float32) : bool := fle (SFabs x) f1_0.

(** Every event has its offset in [0, N). *)
Definition in_block (N : Z) (events : list MidiMessageMetadata) : bool :=
  forallb (fun e => (0 <=? samplePosition e) && (samplePosition e <? N)) events.

(** A call of [render] is for a span of at least one frame that lies
    inside a block of [N] frames. *)
Definition span_in_block (N : Z) (a : Action) : bool :=
  match a with
  | Render n offset => (0 <? n) && (0 <=? offset) && (offset + n <=? N)
  | Midi _ _ _ => true
  end.

(** The voice makes no sound: no note is held and the level is zero. *)
Definition silent (p : Processor) : bool := (activeNote p =? 0) && feq (env p) d0_0.

(** A three-byte note-on with a velocity above zero, for a note other
    than note 0. *)
Definition starts_note (e : MidiMessageMetadata) : bool :=
  (numBytes e =? 3) && (status_nibble (data_at e 0) =? 0x90)
  && (0 <? byte_val (data_at e 2)) && (0 <? byte_val (data_at e 1)).

(** With two channels the right one is as long as the left one. *)
Definition channels_agree (buffer : AudioBuffer) : bool :=
  match right buffer with
  | Some r => (length r =? length (left buffer))%nat
  | None => true
  end.

(** The envelope is in order: the level is in [0, 1], the sample rate is
    a number, and the slope is a number unless the voice is silent. *)
Definition envelope_ok (p : Processor) : bool :=
  in_unit_interval (env p) && negb (isnan (sampleRate p))
  && (silent p || negb (isnan (envSlope p))).

(** A block the host may hand to [processBlock]: fewer than [2^31]
    frames, and every event inside the block. *)
Definition block_ok (blk : AudioBuffer * list MidiMessageMetadata) : bool :=
  (getNumSamples (fst blk) <? 2 ^ 31) && in_block (getNumSamples (fst blk)) (snd blk).

(** A session: [processBlock] called on one block after the other. *)
Definition play {libm : Libm} (blocks : list (AudioBuffer * list MidiMessageMetadata))
    (p : Processor) : Processor :=
  fold_left (fun q blk => fst (fst (processBlock (fst blk) (snd blk) q))) blocks p.

(** A stereo block of four frames that holds samples out of range, and
    the events used in examples: a note-on and a note-off for note 60,
    and a note-on for note 0. *)
Definition stereo4 : AudioBuffer :=
  mkBuffer [f1_5; f1_5; f1_5; f1_5] (Some [f0_25; f0_25; f0_25; f0_25]).
Definition note60_on (offset : Z) : MidiMessageMetadata := mkMidi offset [x90; x3c; x64].
Definition note60_off (offset : Z) : MidiMessageMetadata := mkMidi offset [x80; x3c; x00].
Definition note0_on (offset : Z) : MidiMessageMetadata := mkMidi offset [x90; x00; x64].

(** An event [handleMIDI] does nothing with: a message of more than
    three bytes, or one whose status is neither note-off nor note-on. *)
Definition ignored (e : MidiMessageMetadata) : bool :=
  (3 <? numBytes e)
  || (negb (status_nibble (data_at e 0) =? 0x80) && negb (status_nibble (data_at e 0) =? 0x90)).

(** ** Facts about IEEE comparisons *)

Section Comparisons.

Lemma SFcompare_antisym (x y : spec_float) (c : comparison) :
  SFcompare x y = Some c -> SFcompare y x = Some (CompOpp c).
Proof.
  destruct x as [sx | sx | | sx mx ex], y as [sy | sy | | sy my ey]; simpl;
    try discriminate; intros E; injection E as <-;
    try (destruct sx; reflexivity); try (destruct sy; reflexivity);
    try (destruct sx, sy; reflexivity).
  change (PosDef.Pos.compare_cont Eq my mx) with (Pos.compare my mx).
  change (PosDef.Pos.compare_cont Eq mx my) with (Pos.compare mx my).
  rewrite (Z.compare_antisym ex ey), (Pos.compare_antisym mx my).
  destruct sx, sy; simpl; try reflexivity;
    destruct (ex ?= ey); simpl; reflexivity.
Qed.

Lemma SFcompare_nan_iff (x y : spec_float) :
  SFcompare x y = None <-> isnan x = true \/ isnan y = true.
Proof.
  destruct x as [sx | sx | | sx mx ex], y as [sy | sy | | sy my ey]; simpl;
    intuition (try discriminate; auto);
    try (destruct sx; discriminate); try (destruct sy; discriminate).
Qed.

(** When neither operand is NaN, [x >= y] fails exactly when [x < y]. *)
Lemma fge_false_flt (x y : spec_float) :
  isnan x = false -> isnan y = false -> fge x y = false -> flt x y = true.
Proof.
  unfold fge, flt, SFleb, SFltb. intros Hx Hy.
  destruct (SFcompare y x) as [c |] eqn:E.
  - rewrite (SFcompare_antisym _ _ _ E). destruct c; simpl; congruence.
  - apply SFcompare_nan_iff in E. destruct E; congruence.
Qed.

Lemma fle_false_fgt (x y : spec_float) :
  isnan x = false -> isnan y = false -> fle x y = false -> fgt x y = true.
Proof.
  unfold fle, fgt, SFleb, SFltb. intros Hx Hy.
  destruct (SFcompare x y) as [c |] eqn:E.
  - rewrite (SFcompare_antisym _ _ _ E). destruct c; simpl; congruence.
  - apply SFcompare_nan_iff in E. destruct E; congruence.
Qed.

Lemma flt_fle (x y : spec_float) : flt x y = true -> fle x y = true.
Proof.
  unfold flt, fle, SFltb, SFleb. destruct (SFcompare x y) as [[ | | ] |]; congruence.
Qed.

Lemma fle_not_nan (x y : spec_float) :
  fle x y = true -> isnan x = false /\ isnan y = false.
Proof.
  unfold fle, SFleb. destruct x, y; simpl; auto; discriminate.
Qed.

End Comparisons.

(** ** Facts about IEEE rounding *)

Section Rounding.
Variables prec emax : Z.

Lemma iter_pos_invariant {A : Type} (P : A -> Prop) (f : A -> A) :
  (forall x, P x -> P (f x)) -> forall n x, P x -> P (iter_pos f n x).
Proof.
  intros Hf. induction n as [n IH | n IH |]; intros x Hx; cbn [iter_pos].
  - apply IH, IH, Hf, Hx.
  - apply IH, IH, Hx.
  - apply Hf, Hx.
Qed.

Lemma shr_1_nonneg (r : shr_record) : 0 <= shr_m r -> 0 <= shr_m (shr_1 r).
Proof.
  destruct r as [m r s]. cbn [shr_m]. intros H.
  destruct m as [| [p | p |] | p]; cbn; lia.
Qed.

Lemma shr_fexp_nonneg (m e : Z) (l : location) :
  0 <= m -> 0 <= shr_m (fst (shr_fexp prec emax m e l)).
Proof.
  intros H. unfold shr_fexp, shr.
  assert (H0 : 0 <= shr_m (shr_record_of_loc m l)) by (destruct l as [| []]; exact H).
  destruct (fexp prec emax (Zdigits2 m + e) - e); cbn [fst]; try exact H0.
  now apply iter_pos_invariant; [apply shr_1_nonneg |].
Qed.

Lemma round_nearest_even_bounds (m : Z) (l : location) :
  m <= round_nearest_even m l <= m + 1
  /\ (l = loc_Exact -> round_nearest_even m l = m).
Proof.
  destruct l as [| []]; cbn; try destruct (Z.even m); split; auto; try lia; discriminate.
Qed.

Lemma binary_round_aux_sign (s : bool) (m e : Z) (l : location) :
  0 <= m -> has_sign s (binary_round_aux prec emax s m e l).
Proof.
  intros H. unfold binary_round_aux.
  pose proof (shr_fexp_nonneg m e l H) as H1.
  destruct (shr_fexp prec emax m e l) as [r1 e1]. cbn [fst] in H1.
  pose proof (round_nearest_even_bounds (shr_m r1) (loc_of_shr_record r1)) as [B _].
  pose proof (shr_fexp_nonneg (round_nearest_even (shr_m r1) (loc_of_shr_record r1)) e1
                loc_Exact) as H2.
  destruct (shr_fexp prec emax _ e1 loc_Exact) as [r2 e2]. cbn [fst] in H2.
  specialize (H2 ltac:(lia)).
  destruct (shr_m r2) as [| p | p]; cbn; try reflexivity; [| lia].
  destruct (e2 <=? emax - prec); reflexivity.
Qed.

Lemma binary_round_sign (s : bool) (m : positive) (e : Z) :
  has_sign s (binary_round prec emax s m e).
Proof.
  unfold binary_round.
  destruct (shl_align m e (fexp prec emax (Z.pos (digits2_pos m) + e))) as [mz ez].
  now apply binary_round_aux_sign.
Qed.

Lemma binary_normalize_not_nan (m e : Z) (szero : bool) :
  isnan (binary_normalize prec emax m e szero) = false.
Proof.
  destruct m as [| p | p]; cbn [binary_normalize]; [reflexivity | |].
  - pose proof (binary_round_sign false p e) as H.
    now destruct (binary_round prec emax false p e).
  - pose proof (binary_round_sign true p e) as H.
    now destruct (binary_round prec emax true p e).
Qed.

(** A sum is NaN only if an operand is NaN or both are infinite. *)
Lemma SFadd_not_nan (x y : spec_float) :
  isnan x = false -> isinf x = false -> isnan y = false ->
  isnan (SFadd prec emax x y) = false.
Proof.
  destruct x as [sx | sx | | sx mx ex], y as [sy | sy | | sy my ey];
    cbn [isnan isinf]; try discriminate; intros _ _ _; cbn [SFadd]; try reflexivity.
  - now destruct sx, sy.
  - apply binary_normalize_not_nan.
Qed.

End Rounding.

(** ** Values of canonical numbers and rounding to nearest *)

Section Values.
Variables prec emax : Z.
Hypothesis Hprec : 0 < prec.

Local Abbreviation emin := (SpecFloat.emin prec emax).
Local Abbreviation fexp := (SpecFloat.fexp prec emax).
Local Abbreviation units := (ulps prec emax).
Local Abbreviation canonical := (canonical_mantissa prec emax).

Lemma digits2_pos_size (p : positive) : digits2_pos p = Pos.size p.
Proof. induction p as [p IH | p IH |]; cbn; now rewrite ?IH. Qed.

Lemma digits2_pos_log2 (p : positive) : Z.pos (digits2_pos p) = Z.log2 (Z.pos p) + 1.
Proof.
  destruct p as [p | p |]; cbn [digits2_pos Z.log2]; rewrite ?digits2_pos_size; lia.
Qed.

Lemma digits2_pos_bounds (p : positive) :
  2 ^ (Z.pos (digits2_pos p) - 1) <= Z.pos p < 2 ^ Z.pos (digits2_pos p).
Proof.
  rewrite digits2_pos_log2. replace (Z.log2 (Z.pos p) + 1 - 1) with (Z.log2 (Z.pos p)) by lia.
  apply Z.log2_spec. lia.
Qed.

Lemma digits2_pos_unique (p : positive) (d : Z) :
  2 ^ (d - 1) <= Z.pos p < 2 ^ d -> Z.pos (digits2_pos p) = d.
Proof.
  intros H. rewrite digits2_pos_log2.
  assert (Hd : 0 < d).
  { destruct (Z.ltb_spec 0 d) as [| Hd]; [assumption |].
    destruct d as [| d | d]; cbn in H; try lia. }
  rewrite (Z.log2_unique (Z.pos p) (d - 1)); [lia | lia |].
  now replace (Z.succ (d - 1)) with d by lia.
Qed.

Lemma pow2_pos (k : Z) : 0 <= k -> 0 < 2 ^ k.
Proof. intros H. apply Z.pow_pos_nonneg; lia. Qed.

Lemma pow2_le (a b : Z) : 0 <= a <= b -> 2 ^ a <= 2 ^ b.
Proof. intros H. apply Z.pow_le_mono_r; lia. Qed.

Lemma pow2_split (a b : Z) : 0 <= a -> 0 <= b -> 2 ^ (a + b) = 2 ^ a * 2 ^ b.
Proof. intros Ha Hb. now apply Z.pow_add_r. Qed.

(** What it means for a mantissa to be canonical. *)
Lemma canonical_inv (m : positive) (e : Z) :
  canonical m e = true ->
  emin <= e /\ Z.pos (digits2_pos m) <= prec
  /\ (emin < e -> Z.pos (digits2_pos m) = prec).
Proof.
  unfold canonical_mantissa, SpecFloat.fexp. intros H. apply Z.eqb_eq in H. lia.
Qed.

Lemma canonical_bounds (m : positive) (e : Z) :
  canonical m e = true ->
  emin <= e /\ Z.pos m < 2 ^ prec /\ (emin < e -> 2 ^ (prec - 1) <= Z.pos m).
Proof.
  intros H. destruct (canonical_inv m e H) as (He & Hd & Hn).
  pose proof (digits2_pos_bounds m) as [Hl Hu].
  repeat split; [exact He | |].
  - eapply Z.lt_le_trans; [exact Hu |]. apply pow2_le. lia.
  - intros Hlt. rewrite <- (Hn Hlt). exact Hl.
Qed.

Lemma ulps_lt_exponent (m1 m2 : positive) (e1 e2 : Z) :
  canonical m1 e1 = true -> canonical m2 e2 = true -> e1 < e2 ->
  units (Z.pos m1) e1 < units (Z.pos m2) e2.
Proof.
  intros C1 C2 Hlt.
  destruct (canonical_bounds m1 e1 C1) as (He1 & Hu1 & _).
  destruct (canonical_bounds m2 e2 C2) as (He2 & _ & Hl2).
  specialize (Hl2 ltac:(lia)). unfold ulps.
  replace (e2 - emin) with ((e1 - emin) + (e2 - e1)) by lia.
  rewrite pow2_split by lia.
  pose proof (pow2_pos (e1 - emin) ltac:(lia)) as K.
  assert (H2 : 2 * 2 ^ (prec - 1) = 2 ^ prec).
  { rewrite <- Z.pow_succ_r by lia. f_equal. lia. }
  assert (H3 : 2 <= 2 ^ (e2 - e1)).
  { change 2 with (2 ^ 1) at 1. apply pow2_le. lia. }
  set (k := 2 ^ (e1 - emin)) in *. set (q := 2 ^ (e2 - e1)) in *.
  set (h := 2 ^ (prec - 1)) in *. rewrite <- H2 in Hu1.
  clearbody k q h.
  apply Z.lt_le_trans with (2 * h * k); [nia |].
  apply Z.le_trans with (Z.pos m2 * (k * 2)); nia.
Qed.

(** On canonical mantissas the comparison of the format is the
    comparison of the values. *)
Lemma SFcompare_canonical (m1 m2 : positive) (e1 e2 : Z) :
  canonical m1 e1 = true -> canonical m2 e2 = true ->
  SFcompare (S754_finite false m1 e1) (S754_finite false m2 e2)
  = Some (units (Z.pos m1) e1 ?= units (Z.pos m2) e2).
Proof.
  intros C1 C2. cbn [SFcompare]. f_equal.
  destruct (Z.compare_spec e1 e2) as [-> | Hlt | Hgt].
  - destruct (canonical_inv m2 e2 C2) as (He & _).
    change (PosDef.Pos.compare_cont Eq m1 m2) with (Z.pos m1 ?= Z.pos m2).
    apply Zmult_compare_compat_r, Z.lt_gt, pow2_pos. lia.
  - symmetry. apply Z.compare_lt_iff. now apply ulps_lt_exponent.
  - symmetry. apply Z.compare_gt_iff. now apply ulps_lt_exponent.
Qed.


(** [iter_pos] is plain iteration. *)
Lemma iter_pos_nat {A : Type} (f : A -> A) (n : positive) :
  forall x, iter_pos f n x = Nat.iter (Pos.to_nat n) f x.
Proof.
  induction n as [n IH | n IH |]; intros x; cbn [iter_pos].
  - rewrite !IH, Pos2Nat.inj_xI, Nat.iter_succ_r, <- Nat.iter_add. f_equal. lia.
  - rewrite !IH, Pos2Nat.inj_xO, <- Nat.iter_add. f_equal. lia.
  - reflexivity.
Qed.

Lemma shr_1_spec (r : shr_record) :
  0 <= shr_m r ->
  shr_m (shr_1 r) = shr_m r / 2
  /\ shr_r (shr_1 r) = Z.odd (shr_m r)
  /\ shr_s (shr_1 r) = shr_r r || shr_s r.
Proof.
  destruct r as [m r s]. cbn [shr_m shr_r shr_s]. intros H.
  rewrite <- Z.div2_div.
  destruct m as [| [p | p |] | p]; cbn; try lia; repeat split.
Qed.

(** [k] right shifts of a non-negative mantissa: the quotient by [2^k],
    with both sticky bits clear when the division is exact. *)
Lemma iter_shr_1_spec (k : nat) (m : Z) :
  0 <= m ->
  let r := Nat.iter k shr_1 (Build_shr_record m false false) in
  shr_m r = m / 2 ^ Z.of_nat k
  /\ (m mod 2 ^ Z.of_nat k = 0 -> shr_r r = false /\ shr_s r = false).
Proof.
  intros Hm. induction k as [| k IH]; cbn zeta in *.
  - cbn. rewrite Z.div_1_r. auto.
  - destruct IH as [IHm IHf].
    set (r := Nat.iter k shr_1 (Build_shr_record m false false)) in *.
    rewrite Nat.iter_succ. fold r.
    pose proof (pow2_pos (Z.of_nat k) ltac:(lia)) as K.
    assert (Hr : 0 <= shr_m r) by (rewrite IHm; apply Z.div_pos; lia).
    destruct (shr_1_spec r Hr) as (E1 & E2 & E3).
    assert (P : 2 ^ Z.of_nat (S k) = 2 ^ Z.of_nat k * 2).
    { rewrite Nat2Z.inj_succ, Z.pow_succ_r by lia. lia. }
    split.
    + rewrite E1, IHm, Z.div_div, P by lia. reflexivity.
    + intros Hz. rewrite P in Hz.
      assert (Hq : m = 2 ^ Z.of_nat k * (2 * (m / (2 ^ Z.of_nat k * 2)))).
      { pose proof (Z.div_exact m (2 ^ Z.of_nat k * 2) ltac:(lia)) as [_ D].
        specialize (D Hz). lia. }
      assert (Hk : m mod 2 ^ Z.of_nat k = 0).
      { rewrite Hq, Z.mul_comm. apply Z.mod_mul. lia. }
      destruct (IHf Hk) as [F1 F2].
      rewrite E2, E3, F1, F2, IHm. split; [| reflexivity].
      rewrite Hq at 1. rewrite Z.mul_comm, Z.div_mul by lia.
      rewrite Z.odd_mul. reflexivity.
Qed.


Lemma shr_fexp_noop (m e : Z) :
  fexp (Zdigits2 m + e) <= e ->
  shr_fexp prec emax m e loc_Exact = (Build_shr_record m false false, e).
Proof.
  intros H. unfold shr_fexp, shr. cbn [shr_record_of_loc].
  destruct (fexp (Zdigits2 m + e) - e) eqn:E; try reflexivity. lia.
Qed.

Lemma shr_fexp_shift (m e : Z) :
  0 <= m -> e < fexp (Zdigits2 m + e) ->
  let n := fexp (Zdigits2 m + e) - e in
  exists r, shr_fexp prec emax m e loc_Exact = (r, e + n)
            /\ shr_m r = m / 2 ^ n
            /\ (m mod 2 ^ n = 0 -> loc_of_shr_record r = loc_Exact).
Proof.
  intros Hm H n. unfold shr_fexp, shr. cbn [shr_record_of_loc]. fold n.
  destruct n as [| p | p] eqn:E; try lia.
  rewrite iter_pos_nat.
  destruct (iter_shr_1_spec (Pos.to_nat p) m Hm) as [E1 E2].
  rewrite positive_nat_Z in E1, E2.
  eexists. split; [reflexivity |]. split; [exact E1 |].
  intros Hz. destruct (E2 Hz) as [F1 F2].
  destruct (Nat.iter (Pos.to_nat p) shr_1 _) as [m' r' s']. cbn in F1, F2. now subst.
Qed.

(** Rounding a canonical mantissa changes nothing. *)
Lemma binary_round_aux_canonical (s : bool) (m : positive) (e : Z) :
  canonical m e = true ->
  binary_round_aux prec emax s (Z.pos m) e loc_Exact
  = if e <=? emax - prec then S754_finite s m e else S754_infinity s.
Proof.
  intros C. unfold canonical_mantissa in C. apply Z.eqb_eq in C.
  unfold binary_round_aux.
  rewrite shr_fexp_noop by (cbn [Zdigits2]; lia).
  cbn [shr_m loc_of_shr_record round_nearest_even].
  rewrite shr_fexp_noop by (cbn [Zdigits2]; lia).
  reflexivity.
Qed.

(** A canonical mantissa below a bounded one has an exponent in range. *)
Lemma canonical_below_bounded (m B : positive) (e b : Z) :
  canonical m e = true -> bounded prec emax B b = true ->
  units (Z.pos m) e <= units (Z.pos B) b -> bounded prec emax m e = true.
Proof.
  intros C HB Hle. unfold bounded in *. apply andb_prop in HB as [CB Hb].
  apply Z.leb_le in Hb. rewrite C. cbn [andb]. apply Z.leb_le.
  destruct (Z.le_gt_cases e (emax - prec)) as [| Hgt]; [assumption |].
  pose proof (ulps_lt_exponent B m b e CB C ltac:(lia)). lia.
Qed.


Lemma shift_pos_value (m k : positive) :
  Z.pos (Pos.iter xO m k) = Z.pos m * 2 ^ Z.pos k.
Proof.
  change (Pos.iter xO m k) with (shift_pos k m). rewrite shift_pos_correct.
  change (Z.pow_pos 2 k) with (2 ^ Z.pos k). lia.
Qed.

Lemma shift_pos_digits (m k : positive) :
  Z.pos (digits2_pos (Pos.iter xO m k)) = Z.pos (digits2_pos m) + Z.pos k.
Proof.
  rewrite !digits2_pos_log2, shift_pos_value, Z.log2_mul_pow2; lia.
Qed.

Lemma units_shift (m e k : Z) :
  emin <= e -> 0 <= k -> units (m * 2 ^ k) e = units m (e + k).
Proof.
  intros He Hk. unfold ulps.
  replace (e + k - emin) with (k + (e - emin)) by lia.
  rewrite pow2_split by lia. lia.
Qed.

(** [binary_round] on a mantissa of at most [prec] digits is exact. *)
Lemma binary_round_exact (s : bool) (m : positive) (e : Z) :
  emin <= e -> Z.pos (digits2_pos m) <= prec ->
  exists mz ez,
    binary_round prec emax s m e
    = (if ez <=? emax - prec then S754_finite s mz ez else S754_infinity s)
    /\ canonical mz ez = true
    /\ units (Z.pos mz) ez = units (Z.pos m) e.
Proof.
  intros He Hd. unfold binary_round, shl_align.
  set (ef := fexp (Z.pos (digits2_pos m) + e)).
  assert (Hef : ef = Z.max (Z.pos (digits2_pos m) + e - prec) emin) by reflexivity.
  destruct (ef - e) as [| k | k] eqn:E; try lia.
  - assert (C : canonical m e = true).
    { unfold canonical_mantissa. fold ef. apply Z.eqb_eq. lia. }
    exists m, e. now rewrite binary_round_aux_canonical.
  - assert (C : canonical (Pos.iter xO m k) ef = true).
    { unfold canonical_mantissa. rewrite shift_pos_digits. apply Z.eqb_eq.
      replace (Z.pos (digits2_pos m) + Z.pos k + ef) with (Z.pos (digits2_pos m) + e) by lia.
      reflexivity. }
    exists (Pos.iter xO m k), ef. rewrite binary_round_aux_canonical by exact C.
    repeat split; [exact C |].
    rewrite shift_pos_value, units_shift by lia. f_equal. lia.
Qed.


(** The second normalisation in [binary_round_aux]: a mantissa between
    [2^(prec-1)] and [2^prec] becomes canonical without change of value. *)
Lemma shr_fexp_carry (m2 ef : Z) :
  2 ^ (prec - 1) <= m2 <= 2 ^ prec -> emin <= ef ->
  exists r m3 e3,
    shr_fexp prec emax m2 ef loc_Exact = (r, e3)
    /\ shr_m r = Z.pos m3
    /\ canonical m3 e3 = true
    /\ units (Z.pos m3) e3 = units m2 ef.
Proof.
  intros [Hl Hu] He.
  pose proof (pow2_pos (prec - 1) ltac:(lia)) as Hp.
  assert (H2 : 2 ^ prec = 2 ^ (prec - 1) * 2).
  { replace prec with (Z.succ (prec - 1)) at 1 by lia. rewrite Z.pow_succ_r by lia. lia. }
  destruct m2 as [| p | p]; try lia.
  destruct (Z.eq_dec (Z.pos p) (2 ^ prec)) as [Heq | Hne].
  - assert (D : Z.pos (digits2_pos p) = prec + 1).
    { apply digits2_pos_unique. replace (prec + 1 - 1) with prec by lia.
      rewrite Heq. split; [lia |].
      replace (prec + 1) with (Z.succ prec) by lia. rewrite Z.pow_succ_r by lia. lia. }
    destruct (shr_fexp_shift (Z.pos p) ef) as (r & E & Em & _); [lia | |].
    { cbn [Zdigits2]. rewrite D. unfold SpecFloat.fexp. lia. }
    cbn [Zdigits2] in E, Em. rewrite D in E, Em.
    replace (fexp (prec + 1 + ef) - ef) with 1 in E, Em by (unfold SpecFloat.fexp; lia).
    rewrite Heq, H2, Z.pow_1_r, Z.div_mul in Em by lia.
    assert (Eh : Z.pos (Z.to_pos (2 ^ (prec - 1))) = 2 ^ (prec - 1)) by (apply Z2Pos.id; lia).
    set (h := Z.to_pos (2 ^ (prec - 1))) in *.
    exists r, h, (ef + 1). repeat split; [exact E | now rewrite Eh | |].
    + unfold canonical_mantissa. apply Z.eqb_eq.
      rewrite (digits2_pos_unique h prec).
      * unfold SpecFloat.fexp. lia.
      * rewrite Eh. lia.
    + rewrite Heq, H2, <- Eh. rewrite <- (units_shift (Z.pos h) ef 1) by lia.
      now rewrite Z.pow_1_r.
  - assert (D : Z.pos (digits2_pos p) = prec) by (apply digits2_pos_unique; lia).
    exists (Build_shr_record (Z.pos p) false false), p, ef.
    repeat split.
    + apply shr_fexp_noop. cbn [Zdigits2]. rewrite D. unfold SpecFloat.fexp. lia.
    + unfold canonical_mantissa. apply Z.eqb_eq. rewrite D. unfold SpecFloat.fexp. lia.
Qed.

(** [binary_round] on a mantissa of more than [prec] digits: the result
    is canonical, and its mantissa before the last normalisation is the
    quotient by [2^n] or its successor, the quotient when the division
    is exact; [n] is the number of digits in excess. *)
Lemma binary_round_inexact (s : bool) (m : positive) (e : Z) :
  emin <= e -> prec < Z.pos (digits2_pos m) ->
  let n := Z.pos (digits2_pos m) - prec in
  exists m2 m3 e3,
    binary_round prec emax s m e
    = (if e3 <=? emax - prec then S754_finite s m3 e3 else S754_infinity s)
    /\ canonical m3 e3 = true
    /\ units (Z.pos m3) e3 = units m2 (e + n)
    /\ Z.pos m / 2 ^ n <= m2 <= Z.pos m / 2 ^ n + 1
    /\ (Z.pos m mod 2 ^ n = 0 -> m2 = Z.pos m / 2 ^ n).
Proof.
  intros He Hd n. unfold binary_round, shl_align.
  assert (Hef : fexp (Z.pos (digits2_pos m) + e) = e + n) by (unfold SpecFloat.fexp; lia).
  rewrite Hef. replace (e + n - e) with n by lia.
  destruct n as [| k | k] eqn:En; try lia. rewrite <- En in *.
  unfold binary_round_aux.
  destruct (shr_fexp_shift (Z.pos m) e) as (r1 & E1 & Em & Ex); [lia | |].
  { cbn [Zdigits2]. lia. }
  cbn [Zdigits2] in E1, Em, Ex. rewrite Hef in E1, Em, Ex.
  replace (e + n - e) with n in E1, Em, Ex by lia.
  replace (e + (e + n - e)) with (e + n) in E1 by lia.
  rewrite E1.
  pose proof (round_nearest_even_bounds (shr_m r1) (loc_of_shr_record r1)) as [Rb Re].
  set (m2 := round_nearest_even (shr_m r1) (loc_of_shr_record r1)) in *.
  pose proof (digits2_pos_bounds m) as [Dl Du].
  pose proof (pow2_pos n ltac:(lia)) as Hn.
  pose proof (pow2_pos (prec - 1) ltac:(lia)) as Hp.
  assert (M1 : 2 ^ (prec - 1) <= Z.pos m / 2 ^ n < 2 ^ prec).
  { split.
    - apply Z.div_le_lower_bound; [lia |].
      rewrite <- pow2_split by lia.
      replace (n + (prec - 1)) with (Z.pos (digits2_pos m) - 1) by lia. exact Dl.
    - apply Z.div_lt_upper_bound; [lia |].
      rewrite <- pow2_split by lia.
      replace (n + prec) with (Z.pos (digits2_pos m)) by lia. exact Du. }
  destruct (shr_fexp_carry m2 (e + n)) as (r2 & m3 & e3 & E2 & Em3 & C3 & U3); [lia | lia |].
  rewrite E2, Em3.
  exists m2, m3, e3. repeat split; try assumption; try lia.
  intros Hz. rewrite <- Em. apply Re, Ex, Hz.
Qed.


(** The key fact: rounding to nearest does not cross a number of the
    format.  A positive value that is at most the bounded number
    [B * 2^b] is rounded to a finite number that is at most [B * 2^b]. *)
Lemma binary_round_upper (m B : positive) (e b : Z) :
  emin <= e -> bounded prec emax B b = true ->
  units (Z.pos m) e <= units (Z.pos B) b ->
  exists mr er,
    binary_round prec emax false m e = S754_finite false mr er
    /\ bounded prec emax mr er = true
    /\ units (Z.pos mr) er <= units (Z.pos B) b.
Proof.
  intros He HB Hle.
  assert (CB : canonical B b = true) by (unfold bounded in HB; now apply andb_prop in HB).
  destruct (canonical_bounds B b CB) as (Hb & HBu & _).
  destruct (Z.le_gt_cases (Z.pos (digits2_pos m)) prec) as [Hd | Hd].
  - destruct (binary_round_exact false m e He Hd) as (mz & ez & E & C & U).
    assert (Bz : bounded prec emax mz ez = true).
    { apply (canonical_below_bounded mz B ez b C HB). now rewrite U. }
    exists mz, ez. rewrite E. pose proof Bz as Bz'. unfold bounded in Bz'.
    apply andb_prop in Bz' as [_ Bz']. rewrite Bz'.
    split; [reflexivity | split; [exact Bz | now rewrite U]].
  - destruct (binary_round_inexact false m e He ltac:(lia)) as
      (m2 & m3 & e3 & E & C & U & Rb & Re).
    set (n := Z.pos (digits2_pos m) - prec) in *.
    set (ef := e + n) in *.
    pose proof (digits2_pos_bounds m) as [Dl _].
    pose proof (pow2_pos n ltac:(lia)) as Hn.
    pose proof (pow2_pos (e - emin) ltac:(lia)) as Hk.
    assert (Hef : ef <= b).
    { destruct (Z.le_gt_cases ef b) as [| Hgt]; [assumption | exfalso].
      assert (units (Z.pos B) b < units (Z.pos m) e); [| lia].
      unfold ulps.
      apply Z.lt_le_trans with (2 ^ prec * 2 ^ (b - emin)).
      { apply Z.mul_lt_mono_pos_r; [apply pow2_pos; lia | exact HBu]. }
      apply Z.le_trans with (2 ^ (Z.pos (digits2_pos m) - 1) * 2 ^ (e - emin)).
      { rewrite <- !pow2_split by lia. apply pow2_le. lia. }
      apply Z.mul_le_mono_nonneg_r; lia. }
    set (g := Z.pos B * 2 ^ (b - ef)).
    assert (Ug : units (Z.pos B) b = units g ef).
    { unfold g. rewrite units_shift by lia. f_equal. lia. }
    assert (Hmg : Z.pos m <= g * 2 ^ n).
    { rewrite Ug in Hle. unfold ulps in Hle.
      replace (ef - emin) with (n + (e - emin)) in Hle by lia.
      rewrite pow2_split in Hle by lia.
      apply Z.mul_le_mono_pos_r with (2 ^ (e - emin)); [exact Hk | lia]. }
    assert (Hm2 : m2 <= g).
    { pose proof (Z.div_mod (Z.pos m) (2 ^ n) ltac:(lia)) as Dm.
      pose proof (Z.mod_pos_bound (Z.pos m) (2 ^ n) Hn) as Db.
      destruct (Z.eq_dec (Z.pos m mod 2 ^ n) 0) as [Hz | Hnz].
      - rewrite (Re Hz). apply Z.div_le_upper_bound; lia.
      - assert (Z.pos m / 2 ^ n < g); [| lia].
        apply Z.div_lt_upper_bound; [lia |].
        destruct (Z.le_gt_cases (2 ^ n * g) (Z.pos m)) as [Hge | Hlt]; [| exact Hlt].
        exfalso. apply Hnz. assert (Eq : Z.pos m = g * 2 ^ n) by lia.
        rewrite Eq. apply Z.mod_mul. lia. }
    assert (U2 : units (Z.pos m3) e3 <= units (Z.pos B) b).
    { rewrite U, Ug. unfold ulps. apply Z.mul_le_mono_nonneg_r; [| exact Hm2].
      apply Z.lt_le_incl, pow2_pos. lia. }
    assert (B3 : bounded prec emax m3 e3 = true)
      by exact (canonical_below_bounded m3 B e3 b C HB U2).
    exists m3, e3. rewrite E. pose proof B3 as B3'. unfold bounded in B3'.
    apply andb_prop in B3' as [_ B3']. rewrite B3'.
    split; [reflexivity | split; [exact B3 | exact U2]].
Qed.


Lemma shl_align_value (m : positive) (e ez : Z) :
  ez <= e -> Z.pos (fst (shl_align m e ez)) = Z.pos m * 2 ^ (e - ez).
Proof.
  intros H. unfold shl_align. destruct (ez - e) as [| k | k] eqn:E; try lia; cbn [fst].
  - replace (e - ez) with 0 by lia. cbn. lia.
  - rewrite shift_pos_value. f_equal. f_equal. lia.
Qed.

Lemma units_align (m : positive) (e ez : Z) :
  emin <= ez <= e -> units (Z.pos (fst (shl_align m e ez))) ez = units (Z.pos m) e.
Proof.
  intros H. rewrite shl_align_value, units_shift by lia. f_equal. lia.
Qed.

Lemma units_add (a b e : Z) : units (a + b) e = units a e + units b e.
Proof. unfold ulps. lia. Qed.

Lemma units_sub (a b e : Z) : units (a - b) e = units a e - units b e.
Proof. unfold ulps. lia. Qed.

Lemma units_pos (m : positive) (e : Z) : emin <= e -> 0 < units (Z.pos m) e.
Proof. intros H. unfold ulps. pose proof (pow2_pos (e - emin) ltac:(lia)). lia. Qed.

Lemma units_sign (a e : Z) : emin <= e -> 0 < units a e -> 0 < a.
Proof.
  intros H Hu. unfold ulps in Hu. pose proof (pow2_pos (e - emin) ltac:(lia)). nia.
Qed.

(** The sum of two positive numbers of the format, when their exact sum
    is at most the bounded number [B * 2^b]. *)
Lemma SFadd_upper (mx my B : positive) (ex ey b : Z) :
  canonical mx ex = true -> canonical my ey = true -> bounded prec emax B b = true ->
  units (Z.pos mx) ex + units (Z.pos my) ey <= units (Z.pos B) b ->
  exists mr er,
    SFadd prec emax (S754_finite false mx ex) (S754_finite false my ey)
    = S754_finite false mr er
    /\ bounded prec emax mr er = true
    /\ units (Z.pos mr) er <= units (Z.pos B) b.
Proof.
  intros Cx Cy HB Hle.
  destruct (canonical_inv mx ex Cx) as (Hex & _). destruct (canonical_inv my ey Cy) as (Hey & _).
  cbn [SFadd cond_Zopp]. set (ez := Z.min ex ey).
  assert (Hez : emin <= ez) by (unfold ez; lia).
  cbn [Z.add binary_normalize].
  apply binary_round_upper; [exact Hez | exact HB |].
  rewrite Pos2Z.inj_add, units_add, !units_align by (unfold ez; lia). exact Hle.
Qed.

(** The difference of two positive numbers of the format, the first
    being the larger. *)
Lemma SFsub_upper (mx my B : positive) (ex ey b : Z) :
  canonical mx ex = true -> canonical my ey = true -> bounded prec emax B b = true ->
  units (Z.pos my) ey < units (Z.pos mx) ex ->
  units (Z.pos mx) ex - units (Z.pos my) ey <= units (Z.pos B) b ->
  exists mr er,
    SFsub prec emax (S754_finite false mx ex) (S754_finite false my ey)
    = S754_finite false mr er
    /\ bounded prec emax mr er = true
    /\ units (Z.pos mr) er <= units (Z.pos B) b.
Proof.
  intros Cx Cy HB Hlt Hle.
  destruct (canonical_inv mx ex Cx) as (Hex & _). destruct (canonical_inv my ey Cy) as (Hey & _).
  cbn [SFsub cond_Zopp]. set (ez := Z.min ex ey).
  assert (Hez : emin <= ez) by (unfold ez; lia).
  set (a := Z.pos (fst (shl_align mx ex ez))). set (c := Z.pos (fst (shl_align my ey ez))).
  assert (Ua : units a ez = units (Z.pos mx) ex) by (apply units_align; unfold ez; lia).
  assert (Uc : units c ez = units (Z.pos my) ey) by (apply units_align; unfold ez; lia).
  assert (Hd : 0 < a - c).
  { apply (units_sign _ ez Hez). rewrite units_sub. lia. }
  destruct (a - c) as [| p | p] eqn:E; try lia.
  cbn [binary_normalize].
  apply binary_round_upper; [exact Hez | exact HB |].
  rewrite <- E, units_sub. lia.
Qed.

(** Rounding to nearest does not cross a number of the format from
    above either: a value that is at least the canonical number
    [B * 2^b] is rounded to a finite number that is at least [B * 2^b],
    or to infinity. *)
Lemma binary_round_lower (m B : positive) (e b : Z) :
  emin <= e -> canonical B b = true ->
  units (Z.pos B) b <= units (Z.pos m) e ->
  binary_round prec emax false m e = S754_infinity false
  \/ (exists mr er,
        binary_round prec emax false m e = S754_finite false mr er
        /\ bounded prec emax mr er = true
        /\ units (Z.pos B) b <= units (Z.pos mr) er).
Proof.
  intros He CB Hle.
  destruct (canonical_bounds B b CB) as (Hb & HBu & _).
  destruct (Z.le_gt_cases (Z.pos (digits2_pos m)) prec) as [Hd | Hd].
  - destruct (binary_round_exact false m e He Hd) as (mz & ez & E & C & U).
    rewrite E. destruct (ez <=? emax - prec) eqn:R; [right | now left].
    exists mz, ez. split; [reflexivity |]. split; [| now rewrite U].
    unfold bounded. now rewrite C, R.
  - destruct (binary_round_inexact false m e He ltac:(lia)) as
      (m2 & m3 & e3 & E & C & U & Rb & Re).
    set (n := Z.pos (digits2_pos m) - prec) in *.
    set (ef := e + n) in *.
    rewrite E. destruct (e3 <=? emax - prec) eqn:R; [right | now left].
    exists m3, e3. split; [reflexivity |]. split; [unfold bounded; now rewrite C, R |].
    rewrite U.
    pose proof (digits2_pos_bounds m) as [Dl _].
    pose proof (pow2_pos n ltac:(lia)) as Hn.
    pose proof (pow2_pos (e - emin) ltac:(lia)) as Hk.
    pose proof (pow2_pos (prec - 1) ltac:(lia)) as Hp.
    pose proof (pow2_pos (ef - emin) ltac:(lia)) as Hf.
    assert (M1 : 2 ^ (prec - 1) <= Z.pos m / 2 ^ n).
    { apply Z.div_le_lower_bound; [lia |].
      rewrite <- pow2_split by lia.
      replace (n + (prec - 1)) with (Z.pos (digits2_pos m) - 1) by lia. exact Dl. }
    apply Z.le_trans with (units (Z.pos m / 2 ^ n) ef);
      [| unfold ulps; apply Z.mul_le_mono_nonneg_r; lia].
    destruct (Z.le_gt_cases ef b) as [Hge | Hlt].
    + set (g := Z.pos B * 2 ^ (b - ef)).
      assert (Ug : units (Z.pos B) b = units g ef).
      { unfold g. rewrite units_shift by lia. f_equal. lia. }
      rewrite Ug. unfold ulps. apply Z.mul_le_mono_nonneg_r; [lia |].
      apply Z.div_le_lower_bound; [lia |].
      rewrite Ug in Hle. unfold ulps in Hle.
      replace (ef - emin) with (n + (e - emin)) in Hle by lia.
      rewrite pow2_split in Hle by lia.
      apply Z.mul_le_mono_pos_r with (2 ^ (e - emin)); [exact Hk | lia].
    + unfold ulps.
      apply Z.le_trans with (2 ^ prec * 2 ^ (b - emin)).
      { apply Z.mul_le_mono_nonneg_r; [apply Z.lt_le_incl, pow2_pos; lia | lia]. }
      apply Z.le_trans with (2 ^ (prec - 1) * 2 ^ (ef - emin)).
      { rewrite <- !pow2_split by lia. apply pow2_le. lia. }
      apply Z.mul_le_mono_nonneg_r; lia.
Qed.

(** The sum of two positive numbers of the format is at least any
    canonical number below their exact sum. *)
Lemma SFadd_lower (mx my B : positive) (ex ey b : Z) :
  canonical mx ex = true -> canonical my ey = true -> canonical B b = true ->
  units (Z.pos B) b <= units (Z.pos mx) ex + units (Z.pos my) ey ->
  SFadd prec emax (S754_finite false mx ex) (S754_finite false my ey) = S754_infinity false
  \/ (exists mr er,
        SFadd prec emax (S754_finite false mx ex) (S754_finite false my ey)
        = S754_finite false mr er
        /\ bounded prec emax mr er = true
        /\ units (Z.pos B) b <= units (Z.pos mr) er).
Proof.
  intros Cx Cy CB Hle.
  destruct (canonical_inv mx ex Cx) as (Hex & _). destruct (canonical_inv my ey Cy) as (Hey & _).
  cbn [SFadd cond_Zopp]. set (ez := Z.min ex ey).
  assert (Hez : emin <= ez) by (unfold ez; lia).
  cbn [Z.add binary_normalize].
  apply binary_round_lower; [exact Hez | exact CB |].
  rewrite Pos2Z.inj_add, units_add, !units_align by (unfold ez; lia). exact Hle.
Qed.

End Values.

(** ** The oscillator: [processSample] *)

Section Oscillator.

Local Abbreviation units := (ulps prec emax).

Let Hprec : 0 < prec := eq_refl.

(** A double that is at least zero and at most [TWO_PI] is a zero or a
    positive finite number whose value is at most that of [TWO_PI]. *)
Lemma within_two_pi_inv (x : double) :
  valid_binary x = true -> within_two_pi x = true ->
  (exists s, x = S754_zero s)
  \/ (exists m e, x = S754_finite false m e
                  /\ canonical_mantissa prec emax m e = true
                  /\ units (Z.pos m) e <= units 7074237752028440 (-50)).
Proof.
  intros V H. unfold within_two_pi in H. apply andb_prop in H as [H0 H1].
  destruct x as [s | s | | s m e]; try discriminate.
  - left. now exists s.
  - destruct s; discriminate.
  - destruct s; [discriminate |]. right. exists m, e.
    cbn [valid_binary] in V. unfold bounded in V. apply andb_prop in V as [C _].
    repeat split; [exact C |].
    unfold fle, SFleb, TWO_PI in H1.
    rewrite (SFcompare_canonical prec emax Hprec m 7074237752028440 e (-50) C eq_refl) in H1.
    apply Z.compare_le_iff. intros G. now rewrite G in H1.
Qed.

Lemma fle_fgt_false (x y : spec_float) : fle x y = true -> fgt x y = false.
Proof.
  unfold fle, fgt, SFleb, SFltb. destruct (SFcompare x y) as [c |] eqn:E; [| discriminate].
  rewrite (SFcompare_antisym _ _ _ E). now destruct c.
Qed.

Lemma advance_within_two_pi (ph increment : double) :
  valid_binary ph = true -> valid_binary increment = true ->
  within_two_pi ph = true -> within_two_pi increment = true ->
  valid_binary (advance ph increment) = true
  /\ within_two_pi (advance ph increment) = true.
Proof.
  intros Vp Vi Hp Hi. unfold advance.
  destruct (within_two_pi_inv ph Vp Hp) as [[sp ->] | (mp & ep & -> & Cp & Up)];
    destruct (within_two_pi_inv increment Vi Hi) as [[si ->] | (mi & ei & -> & Ci & Ui)].
  - now destruct sp, si.
  - change (fadd (S754_zero sp) (S754_finite false mi ei)) with (S754_finite false mi ei).
    pose proof Hi as Hi'. unfold within_two_pi in Hi'. apply andb_prop in Hi' as [_ Hi'].
    rewrite (fle_fgt_false _ _ Hi'). now split.
  - change (fadd (S754_finite false mp ep) (S754_zero si)) with (S754_finite false mp ep).
    pose proof Hp as Hp'. unfold within_two_pi in Hp'. apply andb_prop in Hp' as [_ Hp'].
    rewrite (fle_fgt_false _ _ Hp'). now split.
  - destruct (SFadd_upper prec emax Hprec mp mi 7074237752028440 ep ei (-49) Cp Ci eq_refl)
      as (mq & xq & Eq & Bq & Uq).
    { change (units 7074237752028440 (-49)) with (2 * units 7074237752028440 (-50)). lia. }
    unfold fadd, SF64add. rewrite Eq.
    pose proof Bq as Cq. unfold bounded in Cq. apply andb_prop in Cq as [Cq _].
    unfold fgt, SFltb, TWO_PI.
    rewrite (SFcompare_canonical prec emax Hprec 7074237752028440 mq (-50) xq eq_refl Cq).
    destruct (Z.compare_spec (units 7074237752028440 (-50)) (units (Z.pos mq) xq))
      as [He | Hlt | Hgt].
    + split; [exact Bq |]. unfold within_two_pi, fle, SFleb, TWO_PI.
      rewrite (SFcompare_canonical prec emax Hprec mq 7074237752028440 xq (-50) Cq eq_refl).
      rewrite He, Z.compare_refl. reflexivity.
    + destruct (SFsub_upper prec emax Hprec mq 7074237752028440 7074237752028440 xq (-50) (-50)
                  Cq eq_refl eq_refl Hlt) as (mr & er & Er & Br & Ur).
      { change (units 7074237752028440 (-49)) with (2 * units 7074237752028440 (-50)) in Uq.
        lia. }
      unfold fsub, SF64sub. rewrite Er. split; [exact Br |].
      pose proof Br as Cr. unfold bounded in Cr. apply andb_prop in Cr as [Cr _].
      unfold within_two_pi, fle, SFleb, TWO_PI.
      rewrite (SFcompare_canonical prec emax Hprec mr 7074237752028440 er (-50) Cr eq_refl).
      apply Z.compare_le_iff in Ur.
      cbn [SFcompare d0_0]. destruct (units (Z.pos mr) er ?= units 7074237752028440 (-50));
        try reflexivity. now elim Ur.
    + split; [exact Bq |]. unfold within_two_pi, fle, SFleb, TWO_PI.
      rewrite (SFcompare_canonical prec emax Hprec mq 7074237752028440 xq (-50) Cq eq_refl).
      apply Z.compare_lt_iff in Hgt. rewrite Hgt. reflexivity.
Qed.

End Oscillator.

Section OscillatorTick.
Context {libm : Libm}.

Lemma below_within_two_pi (x : double) : below_two_pi x = true -> within_two_pi x = true.
Proof.
  unfold below_two_pi, within_two_pi. intros H. apply andb_prop in H as [H0 H1].
  now rewrite H0, (flt_fle _ _ H1).
Qed.

Lemma feq_not_fgt (x y : spec_float) : feq x y = true -> fgt x y = false.
Proof.
  unfold feq, fgt, SFeqb, SFltb. intros H.
  destruct (SFcompare x y) as [[] |] eqn:E; try discriminate.
  now rewrite (SFcompare_antisym _ _ _ E).
Qed.

(** C3, as amended.  From a phase in [0, 2 pi] and an increment in
    [0, 2 pi), both well-formed doubles, [processSample] (of the plug-in
    and of the command-line program alike) returns the amplitude times
    the sine of the phase it was called with and leaves a well-formed
    phase in [0, 2 pi].  The new phase is the sum of phase and increment
    less [TWO_PI] exactly when the sum is greater than [TWO_PI], and the
    sum itself otherwise; a sum equal to [TWO_PI] is kept. *)
Theorem processSample_phase_within_two_pi (p : Processor) (g : Cli.Globals) :
  (valid_binary (phase p) = true -> valid_binary (inc p) = true ->
   within_two_pi (phase p) = true -> below_two_pi (inc p) = true ->
   valid_binary (phase (fst (processSample p))) = true
   /\ within_two_pi (phase (fst (processSample p))) = true)
  /\ (valid_binary (Cli.phase g) = true -> valid_binary (Cli.inc g) = true ->
      within_two_pi (Cli.phase g) = true -> below_two_pi (Cli.inc g) = true ->
      valid_binary (Cli.phase (fst (Cli.processSample g))) = true
      /\ within_two_pi (Cli.phase (fst (Cli.processSample g))) = true)
  /\ snd (processSample p) = fmul (amplitude p) (sin (phase p))
  /\ snd (Cli.processSample g) = fmul (Cli.amplitude g) (sin (Cli.phase g))
  /\ ((fgt (fadd (phase p) (inc p)) TWO_PI = true ->
       phase (fst (processSample p)) = fsub (fadd (phase p) (inc p)) TWO_PI)
      /\ (fgt (fadd (phase p) (inc p)) TWO_PI = false ->
          phase (fst (processSample p)) = fadd (phase p) (inc p))
      /\ (feq (fadd (phase p) (inc p)) TWO_PI = true ->
          phase (fst (processSample p)) = fadd (phase p) (inc p)))
  /\ ((fgt (fadd (Cli.phase g) (Cli.inc g)) TWO_PI = true ->
       Cli.phase (fst (Cli.processSample g)) = fsub (fadd (Cli.phase g) (Cli.inc g)) TWO_PI)
      /\ (fgt (fadd (Cli.phase g) (Cli.inc g)) TWO_PI = false ->
          Cli.phase (fst (Cli.processSample g)) = fadd (Cli.phase g) (Cli.inc g))
      /\ (feq (fadd (Cli.phase g) (Cli.inc g)) TWO_PI = true ->
          Cli.phase (fst (Cli.processSample g)) = fadd (Cli.phase g) (Cli.inc g)))
  /\ inc (fst (processSample p)) = inc p
  /\ Cli.inc (fst (Cli.processSample g)) = Cli.inc g.
Proof.
  split; [| split; [| split; [| split; [| split; [| split; [| split]]]]]]; try reflexivity.
  - intros Vp Vi Hp Hi.
    change (phase (fst (processSample p))) with (advance (phase p) (inc p)).
    apply advance_within_two_pi; try assumption. now apply below_within_two_pi.
  - intros Vp Vi Hp Hi.
    change (Cli.phase (fst (Cli.processSample g))) with (advance (Cli.phase g) (Cli.inc g)).
    apply advance_within_two_pi; try assumption. now apply below_within_two_pi.
  - change (phase (fst (processSample p))) with (advance (phase p) (inc p)).
    unfold advance. repeat split; intros H.
    + now rewrite H.
    + now rewrite H.
    + now rewrite (feq_not_fgt _ _ H).
  - change (Cli.phase (fst (Cli.processSample g))) with (advance (Cli.phase g) (Cli.inc g)).
    unfold advance. repeat split; intros H.
    + now rewrite H.
    + now rewrite H.
    + now rewrite (feq_not_fgt _ _ H).
Qed.

End OscillatorTick.

(** C3, the claim as stated fails: with phase and increment both equal
    to the constant [PI], each at least 0 and below [TWO_PI], the sum is
    exactly [TWO_PI], which is not greater than [TWO_PI]; the phase
    after the call is [TWO_PI], not below [TWO_PI]. *)
Lemma processSample_phase_reaches_two_pi :
  below_two_pi (phase p_example) = true
  /\ below_two_pi (inc p_example) = true
  /\ phase (fst (@processSample libm_example p_example)) = TWO_PI
  /\ below_two_pi (phase (fst (@processSample libm_example p_example))) = false.
Proof. repeat split. Qed.

(** The invariant at the example state, where the sum is equal to
    [TWO_PI] and is kept, and at the first sample of the command-line
    program. *)
Lemma processSample_phase_within_two_pi_witness :
  within_two_pi (phase (fst (@processSample libm_example p_example))) = true
  /\ within_two_pi (Cli.phase (fst (@Cli.processSample libm_example
                                     (Cli.startSound (Cli.reset Cli.initial))))) = true
  /\ phase (fst (@processSample libm_example p_example)) = TWO_PI.
Proof.
  split; [| split].
  - apply (proj1 (@processSample_phase_within_two_pi libm_example p_example Cli.initial));
      reflexivity.
  - apply (proj1 (proj2 (@processSample_phase_within_two_pi libm_example p_example
                           (Cli.startSound (Cli.reset Cli.initial)))));
      reflexivity.
  - exact (proj2 (proj2 (proj1 (proj2 (proj2 (proj2 (proj2
             (@processSample_phase_within_two_pi libm_example p_example Cli.initial)))))))
             eq_refl).
Defined.

(** ** The note life cycle: [prepareToPlay], [noteOn], [noteOff] *)

Section NoteLifeCycle.
Context {libm : Libm}.

Lemma feq_zero_not_gt (x : double) :
  feq x d0_0 = true -> fgt x (double_of_float f0_0) = false.
Proof.
  destruct x as [s | s | | s m e]; simpl; try discriminate; try reflexivity;
    destruct s; discriminate.
Qed.

(** C5.  When the voice is silent (no active note, envelope level zero),
    one frame of [render] yields exactly 0.0, which is written to the
    buffer as the float 0.0, and the processor is left as it was: phase,
    increment, envelope level and slope, active note, amplitude and
    frequency.  The same holds for any number of frames. *)
Theorem silent_render_changes_nothing (p : Processor) (n : nat) :
  activeNote p = 0 -> feq (env p) d0_0 = true ->
  renderFrame p = (p, d0_0)
  /\ float_of_double d0_0 = f0_0
  /\ renderLoop n p = (p, repeat d0_0 n).
Proof.
  intros Hn He.
  assert (F : renderFrame p = (p, d0_0)).
  { unfold renderFrame. rewrite Hn, (feq_zero_not_gt _ He). reflexivity. }
  split; [exact F | split; [reflexivity |]].
  induction n as [| n IH]; simpl; [reflexivity |].
  now rewrite F, IH.
Qed.

(** The attack and release times are the binary32 number nearest to
    0.01, which is 10737418 * 2^-30; widened to [double] it is not the
    double nearest to 0.01. *)
Lemma attack_release_time_value :
  attackTime = S754_finite false 10737418 (-30)
  /\ releaseTime = attackTime
  /\ double_of_float releaseTime = S754_finite false 5764607394185216 (-59)
  /\ feq (double_of_float releaseTime) (S754_finite false 5764607523034235 (-59)) = false.
Proof. repeat split. Qed.

(** C6.  [noteOff] for a note other than the active one changes nothing;
    in particular after note-on 60, note-on 64, the note-off for 60
    leaves note 64 active with the attack slope.  [noteOff] for the
    active note clears [activeNote] and sets the slope to
    [-1.0 / (sampleRate * releaseTime)], all other members unchanged. *)
Theorem noteOff_only_for_active_note (p : Processor) (note : Z) :
  (note <> activeNote p -> noteOff note p = p)
  /\ (let q := noteOn 64 100 (noteOn 60 100 p) in
      noteOff 60 q = q
      /\ activeNote (noteOff 60 q) = 64
      /\ envSlope (noteOff 60 q)
         = fdiv d1_0 (fmul (sampleRate p) (double_of_float attackTime)))
  /\ (note = activeNote p ->
      let q := noteOff note p in
      activeNote q = 0
      /\ envSlope q = fdiv dm1_0 (fmul (sampleRate p) (double_of_float releaseTime))
      /\ sampleRate q = sampleRate p /\ frequency q = frequency p
      /\ amplitude q = amplitude p /\ env q = env p
      /\ phase q = phase p /\ inc q = inc p).
Proof.
  split; [| split].
  - intros Hne. unfold noteOff.
    destruct (Z.eqb_spec (activeNote p) note) as [E | _]; [congruence | reflexivity].
  - repeat split.
  - intros ->. unfold noteOff. rewrite Z.eqb_refl. repeat split.
Qed.

(** C7, as amended.  [prepareToPlay] stores the sample rate and clears
    the active note, the envelope level, the phase and the increment;
    the frequency, the amplitude and the envelope slope keep whatever
    value they had. *)
Theorem prepareToPlay_resets (sampleRate_ : double) (p : Processor) :
  let q := prepareToPlay sampleRate_ p in
  sampleRate q = sampleRate_
  /\ activeNote q = 0 /\ env q = d0_0 /\ phase q = d0_0 /\ inc q = d0_0
  /\ frequency q = frequency p /\ amplitude q = amplitude p
  /\ envSlope q = envSlope p.
Proof. repeat split. Qed.

(** C9.  [noteOn] sets the amplitude to [(velocity / 127.0) * 0.5], which
    is exactly 0.5 at velocity 127; a message with status [0x9n] and
    velocity 0 is dispatched to [noteOff] for its note. *)
Theorem noteOn_velocity_amplitude (p : Processor) (note velocity : Z)
    (status data1 : byte) :
  amplitude (noteOn note velocity p) = fmul (fdiv (double_of_int velocity) d127_0) d0_5
  /\ amplitude (noteOn 69 127 p) = d0_5
  /\ (Z.land (byte_val status) 0xF0 = 0x90 ->
      handleMIDI status data1 x00 p = noteOff (byte_val data1) p).
Proof.
  split; [reflexivity | split; [reflexivity |]].
  intros H. unfold handleMIDI. rewrite H. reflexivity.
Qed.

End NoteLifeCycle.

(** A silent state with a release slope, a phase and an increment: one
    frame leaves it as it is. *)
Lemma silent_render_changes_nothing_witness :
  @renderFrame libm_example (mkProcessor Cli.d48000 0 d440_0 d0_5 d0_0 dm1_0 PI PI)
  = (mkProcessor Cli.d48000 0 d440_0 d0_5 d0_0 dm1_0 PI PI, d0_0).
Proof.
  apply (@silent_render_changes_nothing libm_example
           (mkProcessor Cli.d48000 0 d440_0 d0_5 d0_0 dm1_0 PI PI) 3); reflexivity.
Defined.

(** With note 60 active, the note-off for 64 is ignored and the one for
    60 clears the active note. *)
Lemma noteOff_only_for_active_note_witness :
  noteOff 64 p_example = p_example /\ activeNote (noteOff 60 p_example) = 0.
Proof.
  split.
  - apply (proj1 (@noteOff_only_for_active_note libm_example p_example 64)).
    discriminate.
  - apply (proj2 (proj2 (@noteOff_only_for_active_note libm_example p_example 60))).
    reflexivity.
Defined.

(** C7, the claim as stated fails: no initial values exist to which
    [prepareToPlay] would reset the frequency, the amplitude and the
    envelope slope, since it returns whatever they were before. *)
Lemma prepareToPlay_keeps_voice_parameters :
  ~ (exists f0 a0 s0 : double, forall sampleRate_ p,
        frequency (prepareToPlay sampleRate_ p) = f0
        /\ amplitude (prepareToPlay sampleRate_ p) = a0
        /\ envSlope (prepareToPlay sampleRate_ p) = s0).
Proof.
  intros (f0 & a0 & s0 & H).
  destruct (H Cli.d48000 p_example) as (_ & A1 & _).
  destruct (H Cli.d48000 (set_amplitude d1_0 p_example)) as (_ & A2 & _).
  rewrite <- A2 in A1. discriminate A1.
Qed.

(** Note 69 at velocity 127, and the message 90 45 00. *)
Lemma noteOn_velocity_amplitude_witness :
  amplitude (@noteOn libm_example 69 127 p_example) = d0_5
  /\ @handleMIDI libm_example x90 x45 x00 p_example = noteOff 69 p_example.
Proof.
  split.
  - apply (proj1 (proj2 (@noteOn_velocity_amplitude libm_example p_example 69 127 x90 x45))).
  - apply (proj2 (proj2 (@noteOn_velocity_amplitude libm_example p_example 69 127 x90 x45))).
    reflexivity.
Defined.

(** ** The output guard: [protectYourEars] *)

Section OutputGuard.

(** The magnitude test against a positive bound is the two-sided test of
    the code. *)
Lemma magnitude_exceeds_two_sided (x : spec_float) (m : positive) (e : Z) :
  magnitude_exceeds x (S754_finite false m e)
  = flt x (S754_finite true m e) || fgt x (S754_finite false m e).
Proof.
  unfold magnitude_exceeds, fgt, flt, SFltb.
  destruct x as [s | s | | s mx ex]; simpl; try reflexivity.
  - destruct s; reflexivity.
  - destruct s; simpl; [| reflexivity].
    change (PosDef.Pos.compare_cont Eq m mx) with (Pos.compare m mx).
    change (PosDef.Pos.compare_cont Eq mx m) with (Pos.compare mx m).
    rewrite (Z.compare_antisym ex e), (Pos.compare_antisym mx m).
    destruct (ex ?= e); simpl; try reflexivity.
    destruct (mx ?= m)%positive; reflexivity.
Qed.

Lemma silences_code (x : float32) :
  silences x = isnan x || isinf x || (flt x fm2_0 || fgt x f2_0).
Proof. unfold silences, f2_0, fm2_0. now rewrite (magnitude_exceeds_two_sided x). Qed.

Lemma clamp_code (x : float32) :
  clamp x = if flt x fm1_0 then fm1_0 else if fgt x f1_0 then f1_0 else x.
Proof.
  unfold clamp, f1_0 at 1. rewrite (magnitude_exceeds_two_sided x).
  destruct x as [s | s | | s mx ex]; try reflexivity; try (destruct s; reflexivity).
  destruct s.
    + replace (fgt (S754_finite true mx ex) (S754_finite false 8388608 (-23))) with false
        by reflexivity.
      rewrite orb_false_r.
      replace (flt (S754_finite true mx ex) f0_0) with true by reflexivity.
      reflexivity.
    + replace (flt (S754_finite false mx ex) (S754_finite true 8388608 (-23))) with false
        by reflexivity.
      replace (flt (S754_finite false mx ex) fm1_0) with false by reflexivity.
      reflexivity.
Qed.

Lemma protectLoop_result (buffer : list float32) (firstWarning : bool) :
  fst (protectLoop buffer firstWarning)
  = if existsb silences buffer then None else Some (map clamp buffer).
Proof.
  revert firstWarning. induction buffer as [| x rest IH]; intros fw; [reflexivity |].
  cbn [protectLoop existsb map]. rewrite (silences_code x), (clamp_code x).
  destruct (isnan x); [reflexivity |].
  destruct (isinf x); [reflexivity |].
  destruct (flt x fm2_0 || fgt x f2_0); [reflexivity |]. cbn [orb].
  destruct (flt x fm1_0); [| destruct (fgt x f1_0)].
  - specialize (IH false). destruct (protectLoop rest false) as [r log].
    cbn [fst] in *. rewrite IH. now destruct (existsb silences rest).
  - specialize (IH false). destruct (protectLoop rest false) as [r log].
    cbn [fst] in *. rewrite IH. now destruct (existsb silences rest).
  - specialize (IH fw). destruct (protectLoop rest fw) as [r log].
    cbn [fst] in *. rewrite IH. now destruct (existsb silences rest).
Qed.

Lemma protectLoop_stops (pre post : list float32) (x : float32) (firstWarning : bool) :
  silences x = true ->
  protectLoop (pre ++ x :: post) firstWarning = protectLoop (pre ++ [x]) firstWarning.
Proof.
  intros Hx. revert firstWarning.
  induction pre as [| y pre IH]; intros fw; cbn [app protectLoop].
  - rewrite silences_code in Hx.
    destruct (isnan x); [reflexivity |]. destruct (isinf x); [reflexivity |].
    cbn [orb] in Hx. now rewrite Hx.
  - now rewrite !IH.
Qed.

(** C2.  A span with a sample that is NaN, infinite or of magnitude above
    2.0 comes out as all zeros, and the scan ends at the first such
    sample (what follows it has no influence on what is reported);
    otherwise every sample is clamped: above 1.0 to 1.0, below -1.0 to
    -1.0, and of magnitude at most 1.0 unchanged. *)
Theorem protectYourEars_guard (buffer : list float32) :
  (existsb silences buffer = true ->
   fst (protectYourEars (Some buffer)) = Some (repeat f0_0 (length buffer)))
  /\ (existsb silences buffer = false ->
      fst (protectYourEars (Some buffer)) = Some (map clamp buffer))
  /\ (forall x, fgt x f1_0 = true -> clamp x = f1_0)
  /\ (forall x, flt x fm1_0 = true -> clamp x = fm1_0)
  /\ (forall x, fle (SFabs x) f1_0 = true -> clamp x = x)
  /\ (forall pre x post, buffer = pre ++ x :: post -> silences x = true ->
      snd (protectYourEars (Some buffer)) = snd (protectYourEars (Some (pre ++ [x])))).
Proof.
  assert (R := protectLoop_result buffer true).
  repeat split.
  - intros H. unfold protectYourEars. rewrite H in R.
    destruct (protectLoop buffer true) as [[b |] log]; [discriminate | reflexivity].
  - intros H. unfold protectYourEars. rewrite H in R.
    destruct (protectLoop buffer true) as [[b |] log]; [exact R | discriminate].
  - intros x H. rewrite clamp_code, H.
    destruct (flt x fm1_0) eqn:E; [| reflexivity].
    destruct x as [s | s | | s mx ex]; try destruct s; discriminate.
  - intros x H. now rewrite clamp_code, H.
  - intros x H. unfold clamp, magnitude_exceeds, fgt.
    destruct (SFltb f1_0 (SFabs x)) eqn:E; [| reflexivity].
    unfold fle, SFleb in H. unfold SFltb in E.
    destruct (SFcompare f1_0 (SFabs x)) as [c |] eqn:C; [| discriminate].
    rewrite (SFcompare_antisym _ _ _ C) in H. destruct c; discriminate.
  - intros pre x post -> Hx. unfold protectYourEars.
    rewrite (protectLoop_stops pre post x true Hx).
    destruct (protectLoop (pre ++ [x]) true) as [[b |] log]; reflexivity.
Qed.

End OutputGuard.

(** A span with one sample at 1.5 is clamped there only; a span with a
    NaN comes out as zeros; 1.0 itself is kept. *)
Lemma protectYourEars_guard_witness :
  fst (protectYourEars (Some [f0_25; f1_5; fm1_0])) = Some [f0_25; f1_0; fm1_0]
  /\ fst (protectYourEars (Some [f0_25; S754_nan; f1_5])) = Some [f0_0; f0_0; f0_0]
  /\ clamp f1_0 = f1_0.
Proof.
  split; [| split].
  - exact (proj1 (proj2 (protectYourEars_guard [f0_25; f1_5; fm1_0])) eq_refl).
  - exact (proj1 (protectYourEars_guard [f0_25; S754_nan; f1_5]) eq_refl).
  - exact (proj1 (proj2 (proj2 (proj2 (proj2 (protectYourEars_guard [])))))
             f1_0 eq_refl).
Defined.

(** ** The envelope in [render] *)

Section Envelope.
Context {libm : Libm}.

Lemma in_unit_interval_finite (x : double) :
  in_unit_interval x = true -> isnan x = false /\ isinf x = false.
Proof.
  unfold in_unit_interval. intros H. apply andb_prop in H as [H0 H1].
  destruct x as [s | s | | s m e]; try (split; reflexivity); try discriminate.
  destruct s; discriminate.
Qed.

(** The increment and clamp of the envelope in [render]. *)
Lemma envelope_step_in_unit_interval (level slope : double) :
  in_unit_interval level = true -> isnan slope = false ->
  let e := fadd level slope in
  in_unit_interval
    (if fge e (double_of_float f1_0) then double_of_float f1_0
     else if fle e (double_of_float f0_0) then double_of_float f0_0
     else e) = true.
Proof.
  intros Hl Hs e.
  destruct (in_unit_interval_finite _ Hl) as [Hn Hi].
  assert (He : isnan e = false) by (apply SFadd_not_nan; assumption).
  change (double_of_float f1_0) with d1_0. change (double_of_float f0_0) with d0_0.
  destruct (fge e d1_0) eqn:G; [reflexivity |].
  destruct (fle e d0_0) eqn:L; [reflexivity |].
  unfold in_unit_interval. apply andb_true_intro. split.
  - apply flt_fle. change (fgt e d0_0 = true). now apply fle_false_fgt.
  - apply flt_fle. now apply fge_false_flt.
Qed.

Lemma renderFrame_envSlope (p : Processor) :
  envSlope (fst (renderFrame p)) = envSlope p.
Proof.
  unfold renderFrame, processSample. cbv zeta.
  destruct ((0 <? activeNote p) || fgt (env p) (double_of_float f0_0)); reflexivity.
Qed.

Lemma renderFrame_env (p : Processor) :
  in_unit_interval (env p) = true -> isnan (envSlope p) = false ->
  in_unit_interval (env (fst (renderFrame p))) = true.
Proof.
  intros Hl Hs. unfold renderFrame, processSample. cbv zeta.
  destruct ((0 <? activeNote p) || fgt (env p) (double_of_float f0_0)); [| exact Hl].
  cbn [ENABLE_ENVELOPE fst env set_env set_phase envSlope].
  now apply envelope_step_in_unit_interval.
Qed.

(** C4, as amended.  From a level in [0, 1] and with any slope that is
    not NaN (finite of any magnitude, or infinite), the level is in
    [0, 1] after every frame of [render], for any number of frames; the
    clamp comes right after the increment, and the sample is scaled by
    the clamped level. *)
Theorem envelope_stays_in_unit_interval (p : Processor) (n : nat) :
  in_unit_interval (env p) = true -> isnan (envSlope p) = false ->
  in_unit_interval (env (fst (renderLoop n p))) = true
  /\ in_unit_interval (env (fst (renderFrame p))) = true
  /\ ((0 <? activeNote p) || fgt (env p) d0_0 = true ->
      snd (renderFrame p)
      = fmul (fadd d0_0 (snd (processSample p))) (env (fst (renderFrame p)))).
Proof.
  intros Hl Hs. split; [| split].
  - revert p Hl Hs. induction n as [| n IH]; intros p Hl Hs; [exact Hl |].
    cbn [renderLoop].
    pose proof (renderFrame_env p Hl Hs) as H1.
    pose proof (renderFrame_envSlope p) as H2.
    destruct (renderFrame p) as [p1 o]. cbn [fst] in H1, H2.
    specialize (IH p1 H1). rewrite H2 in IH. specialize (IH Hs).
    destruct (renderLoop n p1) as [p2 os]. exact IH.
  - now apply renderFrame_env.
  - intros Ha. unfold renderFrame. change (double_of_float f0_0) with d0_0.
    rewrite Ha. unfold processSample. cbv zeta. reflexivity.
Qed.

Lemma fmul_finite_not_nan (x y : double) :
  isnan x = false -> (exists s m e, y = S754_finite s m e) ->
  isnan (fmul x y) = false.
Proof.
  intros Hx (s & m & e & ->).
  destruct x as [sx | sx | | sx mx ex]; try discriminate; try reflexivity.
  unfold fmul, SF64mul. cbn [SFmul].
  pose proof (binary_round_aux_sign prec emax (xorb sx s) (Z.pos (mx * m)) (ex + e)
                loc_Exact ltac:(lia)) as H.
  now destruct (binary_round_aux prec emax (xorb sx s) (Z.pos (mx * m)) (ex + e) loc_Exact).
Qed.

Lemma fdiv_finite_not_nan (x y : double) :
  (exists s m e, x = S754_finite s m e) -> isnan y = false ->
  isnan (fdiv x y) = false.
Proof.
  intros (s & m & e & ->) Hy.
  destruct y as [sy | sy | | sy my ey]; try discriminate; try reflexivity.
  unfold fdiv, SF64div. cbn [SFdiv].
  destruct (SFdiv_core_binary prec emax (Z.pos m) e (Z.pos my) ey) as [[mz ez] lz] eqn:E.
  assert (Hmz : 0 <= mz).
  { unfold SFdiv_core_binary in E.
    set (sh := e - ey - _) in E.
    set (m' := match sh with Z.pos _ => Z.shiftl (Z.pos m) sh | 0 => Z.pos m | Z.neg _ => 0 end) in E.
    assert (H' : 0 <= m').
    { subst m'. destruct sh; try lia. apply Z.shiftl_nonneg. lia. }
    pose proof (Z_div_mod m' (Z.pos my) ltac:(lia)) as D.
    destruct (Z.div_eucl m' (Z.pos my)) as [q r]. injection E as <- _ _.
    destruct D as [D1 D2]. nia. }
  pose proof (binary_round_aux_sign prec emax (xorb s sy) mz ez lz Hmz) as H.
  now destruct (binary_round_aux prec emax (xorb s sy) mz ez lz).
Qed.

(** With a sample rate that is a number, the slope set by [noteOn] is a
    number, and [noteOff] leaves a slope that is a number if it was one:
    the envelope slope is NaN only if the sample rate is. *)
Lemma note_slopes_not_nan (note velocity : Z) (p : Processor) :
  isnan (sampleRate p) = false ->
  isnan (envSlope (noteOn note velocity p)) = false
  /\ (isnan (envSlope p) = false -> isnan (envSlope (noteOff note p)) = false).
Proof.
  intros Hr. split.
  - change (isnan (fdiv d1_0 (fmul (sampleRate p) (double_of_float attackTime))) = false).
    apply fdiv_finite_not_nan; [now eexists _, _, _ |].
    apply fmul_finite_not_nan; [exact Hr | now eexists _, _, _].
  - intros Hs. unfold noteOff. destruct (activeNote p =? note); [| exact Hs].
    change (isnan (fdiv dm1_0 (fmul (sampleRate p) (double_of_float releaseTime))) = false).
    apply fdiv_finite_not_nan; [now eexists _, _, _ |].
    apply fmul_finite_not_nan; [exact Hr | now eexists _, _, _].
Qed.

End Envelope.

(** C4, the claim as stated fails: not for a slope of any value.  After
    [prepareToPlay] with a NaN sample rate, a note-on leaves a level of
    0 and a NaN slope; the first frame of [render] adds the slope, both
    tests of the clamp are false for the NaN sum, and the level is NaN,
    which is not in [0, 1]. *)
Lemma envelope_nan_slope_leaves_unit_interval :
  in_unit_interval
    (env (@noteOn libm_example 60 100 (prepareToPlay S754_nan p_example))) = true
  /\ isnan (envSlope (@noteOn libm_example 60 100 (prepareToPlay S754_nan p_example))) = true
  /\ isnan (env (fst (@renderFrame libm_example
                        (@noteOn libm_example 60 100 (prepareToPlay S754_nan p_example)))))
     = true
  /\ in_unit_interval
       (env (fst (@renderFrame libm_example
                    (@noteOn libm_example 60 100 (prepareToPlay S754_nan p_example)))))
     = false.
Proof. vm_compute. repeat split. Qed.

(** Level 0.5 with slope 1.0: three frames later the level is still in
    the unit interval. *)
Lemma envelope_stays_in_unit_interval_witness :
  in_unit_interval (env (fst (@renderLoop libm_example 3 p_example))) = true.
Proof.
  apply (@envelope_stays_in_unit_interval libm_example p_example 3); reflexivity.
Defined.

(** ** The event scheduler: [splitBufferByEvents] *)

Section Scheduler.

Lemma swrap_small (w z : Z) :
  0 < w -> - 2 ^ (w - 1) <= z < 2 ^ (w - 1) -> swrap w z = z.
Proof.
  intros Hw Hz. unfold swrap.
  assert (E : 2 ^ w = 2 * 2 ^ (w - 1)).
  { rewrite <- Z.pow_succ_r by lia. f_equal. lia. }
  rewrite Z.mod_small; lia.
Qed.

Lemma int_of_small (z : Z) : - 2 ^ 31 <= z < 2 ^ 31 -> int_of z = z.
Proof. intros H. apply swrap_small; [lia | exact H]. Qed.

Context {S : Type}.
Variable render_ : Z -> Z -> S -> S.
Variable handleMIDI_ : byte -> byte -> byte -> S -> S.

Let logR := fun (n offset : Z) (log : list Action) => log ++ [Render n offset].
Let logH := fun (data0 data1 data2 : byte) (log : list Action) => log ++ [Midi data0 data1 data2].

(** One step of the loop, in terms of the calls it makes. *)
Lemma splitStep_calls (c : Z) (s : S) (log : list Action) (e : MidiMessageMetadata) :
  0 <= c <= samplePosition e -> samplePosition e < 2 ^ 31 ->
  let acts := (if c <? samplePosition e then [Render (samplePosition e - c) c] else [])
                ++ midi_effect e in
  splitStep render_ handleMIDI_ (c, s) e
  = (samplePosition e, fold_left (performWith render_ handleMIDI_) acts s)
  /\ splitStep logR logH (c, log) e = (samplePosition e, log ++ acts).
Proof.
  intros Hc Hp acts. subst acts. unfold splitStep, midi_effect.
  rewrite (int_of_small (samplePosition e - c)) by lia.
  replace (0 <? samplePosition e - c) with (c <? samplePosition e)
    by (destruct (Z.ltb_spec c (samplePosition e)), (Z.ltb_spec 0 (samplePosition e - c)); lia).
  destruct (Z.ltb_spec c (samplePosition e)) as [Hlt | Hge].
  - rewrite (int_of_small (c + (samplePosition e - c))) by lia.
    replace (c + (samplePosition e - c)) with (samplePosition e) by lia.
    destruct (numBytes e <=? 3); cbn; unfold logR, logH;
      rewrite <- ?app_assoc; split; reflexivity.
  - assert (c = samplePosition e) as -> by lia.
    destruct (numBytes e <=? 3); cbn; unfold logR, logH;
      rewrite ?app_nil_r; split; reflexivity.
Qed.

Lemma fold_splitStep_calls (N : Z) (events : list MidiMessageMetadata) :
  forall (c : Z) (s : S) (log : list Action),
  0 <= c -> N < 2 ^ 31 -> time_ordered c events = true ->
  forallb (fun e => samplePosition e <? N) events = true ->
  exists c' acts,
    fold_left (splitStep render_ handleMIDI_) events (c, s)
    = (c', fold_left (performWith render_ handleMIDI_) acts s)
    /\ fold_left (splitStep logR logH) events (c, log) = (c', log ++ acts)
    /\ c <= c' /\ (events <> [] -> c' < N)
    /\ schedule N c events = acts ++ schedule N c' [].
Proof.
  induction events as [| e rest IH]; intros c s log Hc HN Hord Hlt.
  - exists c, []. cbn. rewrite app_nil_r. repeat split; try lia. congruence.
  - cbn [time_ordered forallb] in Hord, Hlt.
    apply andb_prop in Hord as [Hce Hord]. apply andb_prop in Hlt as [HeN Hlt].
    apply Z.leb_le in Hce. apply Z.ltb_lt in HeN.
    destruct (splitStep_calls c s log e) as [E1 E2]; [lia | lia |].
    cbn [fold_left]. rewrite E1, E2.
    set (acts0 := (if c <? samplePosition e then [Render (samplePosition e - c) c] else [])
                    ++ midi_effect e) in *.
    destruct (IH (samplePosition e) (fold_left (performWith render_ handleMIDI_) acts0 s)
                (log ++ acts0)) as (c' & acts & F1 & F2 & Hle & Hn & Hs); try assumption; try lia.
    exists c', (acts0 ++ acts). rewrite F1, F2, fold_left_app, <- app_assoc.
    repeat split; try lia.
    + intros _. destruct rest as [| e' rest']; [| apply Hn; congruence].
      cbn in F2. injection F2 as <- _. exact HeN.
    + cbn [schedule]. subst acts0.
      destruct (Z.ltb_spec c (samplePosition e)) as [H1 | H1].
      * cbn [app]. rewrite Hs, <- app_assoc. reflexivity.
      * assert (c = samplePosition e) as -> by lia.
        cbn [app]. rewrite Hs, <- app_assoc. reflexivity.
Qed.

(** The whole function: it makes the calls of [schedule], and these are
    the calls recorded by [calls]. *)
Lemma splitBufferByEventsWith_schedule (N : Z) (events : list MidiMessageMetadata) (s : S) :
  0 <= N < 2 ^ 31 -> time_ordered 0 events = true ->
  forallb (fun e => samplePosition e <? N) events = true ->
  splitBufferByEventsWith render_ handleMIDI_ N events s
  = (fold_left (performWith render_ handleMIDI_) (schedule N 0 events) s, [])
  /\ calls N events = schedule N 0 events.
Proof.
  intros HN Hord Hlt.
  destruct (fold_splitStep_calls N events 0 s [] (Z.le_refl 0) (proj2 HN) Hord Hlt)
    as (c' & acts & F1 & F2 & Hle & Hn & Hs).
  assert (Hc' : c' <= N).
  { destruct events as [| e rest]; [| apply Z.lt_le_incl, Hn; congruence].
    cbn in F2. injection F2 as <- _. lia. }
  unfold calls, splitBufferByEventsWith. fold logR logH. rewrite F1, F2, Hs.
  rewrite (int_of_small (N - c')) by lia.
  replace (0 <? N - c') with (c' <? N)
    by (destruct (Z.ltb_spec c' N), (Z.ltb_spec 0 (N - c')); lia).
  cbn [schedule app fst]. rewrite fold_left_app.
  destruct (c' <? N); cbn; rewrite ?app_nil_r; split; reflexivity.
Qed.

End Scheduler.

Section Partition.

Lemma map_seq_shift {A : Type} (f : nat -> A) (n m : nat) :
  forall a, map f (seq (a + n) m) = map (fun k => f (k + n)%nat) (seq a m).
Proof.
  induction m as [| m IH]; intros a; [reflexivity |].
  cbn [seq map]. f_equal. apply (IH (Datatypes.S a)).
Qed.

Lemma frames_app (from : Z) (n m : nat) :
  frames from n ++ frames (from + Z.of_nat n) m = frames from (n + m).
Proof.
  unfold frames. rewrite seq_app, map_app. f_equal.
  rewrite (map_seq_shift _ n m 0). apply map_ext. intros k. lia.
Qed.

Lemma rendered_frames_app (a b : list Action) :
  rendered_frames (a ++ b) = rendered_frames a ++ rendered_frames b.
Proof. apply flat_map_app. Qed.

Lemma rendered_frames_midi_effect (e : MidiMessageMetadata) :
  rendered_frames (midi_effect e) = [].
Proof. unfold midi_effect. now destruct (numBytes e <=? 3). Qed.

Lemma midi_calls_midi_effect (e : MidiMessageMetadata) :
  midi_calls (midi_effect e) = midi_effect e.
Proof. unfold midi_effect. now destruct (numBytes e <=? 3). Qed.

(** Every frame from the cursor to the end of the block is rendered
    once, in order. *)
Lemma schedule_frames (N : Z) (events : list MidiMessageMetadata) :
  forall c, 0 <= c <= N -> time_ordered c events = true ->
  forallb (fun e => samplePosition e <? N) events = true ->
  rendered_frames (schedule N c events) = frames c (Z.to_nat (N - c)).
Proof.
  induction events as [| e rest IH]; intros c Hc Hord Hlt.
  - cbn [schedule]. destruct (Z.ltb_spec c N) as [H | H].
    + cbn. now rewrite app_nil_r.
    + now replace (N - c) with 0 by lia.
  - cbn [time_ordered forallb] in Hord, Hlt.
    apply andb_prop in Hord as [Hce Hord]. apply andb_prop in Hlt as [HeN Hlt].
    apply Z.leb_le in Hce. apply Z.ltb_lt in HeN.
    cbn [schedule]. destruct (Z.ltb_spec c (samplePosition e)) as [H | H].
    + change (Render ?n ?o :: ?l) with ([Render n o] ++ l).
      rewrite !rendered_frames_app, rendered_frames_midi_effect, IH by (assumption || lia).
      cbn [rendered_frames flat_map app]. rewrite app_nil_r.
      replace (samplePosition e) with (c + Z.of_nat (Z.to_nat (samplePosition e - c))) at 2 by lia.
      rewrite frames_app. f_equal. lia.
    + assert (c = samplePosition e) as -> by lia.
      rewrite rendered_frames_app, rendered_frames_midi_effect. apply IH; assumption || lia.
Qed.

(** The events are applied in the order given. *)
Lemma schedule_midi_calls (N : Z) (events : list MidiMessageMetadata) :
  forall c, midi_calls (schedule N c events) = flat_map midi_effect events.
Proof.
  induction events as [| e rest IH]; intros c; cbn [schedule flat_map].
  - now destruct (c <? N).
  - destruct (c <? samplePosition e); cbn [midi_calls filter];
      fold (midi_calls (midi_effect e ++ schedule N (samplePosition e) rest));
      fold (midi_calls (midi_effect e ++ schedule N c rest));
      unfold midi_calls at 1; rewrite filter_app;
      fold (midi_calls (midi_effect e)); rewrite midi_calls_midi_effect;
      f_equal; apply IH.
Qed.

(** Two consecutive events with the same time stamp are applied one
    right after the other. *)
Lemma schedule_same_offset (N : Z) (pre post : list MidiMessageMetadata)
    (e1 e2 : MidiMessageMetadata) :
  forall c, samplePosition e1 = samplePosition e2 ->
  exists t1 t2, schedule N c (pre ++ e1 :: e2 :: post)
                = t1 ++ midi_effect e1 ++ midi_effect e2 ++ t2.
Proof.
  intros c Heq. revert c. induction pre as [| e pre IH]; intros c.
  - cbn [app schedule]. rewrite <- Heq.
    destruct (c <? samplePosition e1).
    + rewrite Z.ltb_irrefl.
      exists [Render (samplePosition e1 - c) c], (schedule N (samplePosition e1) post).
      reflexivity.
    + exists [], (schedule N c post). reflexivity.
  - cbn [app schedule]. destruct (c <? samplePosition e).
    + destruct (IH (samplePosition e)) as (t1 & t2 & E). rewrite E.
      exists (Render (samplePosition e - c) c :: midi_effect e ++ t1), t2.
      cbn [app]. now rewrite <- app_assoc.
    + destruct (IH c) as (t1 & t2 & E). rewrite E.
      exists (midi_effect e ++ t1), t2. now rewrite <- app_assoc.
Qed.

End Partition.

Section EventScheduler.
Context {libm : Libm}.

Let handle := fun (data0 data1 data2 : byte) (st : Processor * AudioBuffer) =>
  (handleMIDI data0 data1 data2 (fst st), snd st).

Lemma handleMIDI_dispatch (data0 data1 data2 : byte) (p : Processor) :
  handleMIDI data0 data1 data2 p
  = if status_nibble data0 =? 0x80 then noteOff (byte_val data1) p
    else if status_nibble data0 =? 0x90 then
      (if 0 <? byte_val data2 then noteOn (byte_val data1) (byte_val data2) p
       else noteOff (byte_val data1) p)
    else p.
Proof.
  unfold handleMIDI, status_nibble.
  destruct (Z.eqb_spec (Z.land (byte_val data0) 240) 128) as [-> | H1]; [reflexivity |].
  destruct (Z.eqb_spec (Z.land (byte_val data0) 240) 144) as [-> | H2]; [reflexivity |].
  destruct (Z.land (byte_val data0) 240) as [| q | q]; try reflexivity.
  do 8 (destruct q as [q | q |]; try reflexivity); congruence.
Qed.

(** C1.  For a block of N frames and events in time order with offsets
    in [0, N), [splitBufferByEvents] makes the calls of the scheduling
    algorithm: for each event it first renders [cursor, offset) when the
    offset exceeds the cursor, then applies the event; at the end it
    renders what is left of the block.  The rendered frames are
    0, 1, ..., N-1, each once; the events are applied in the order given
    and two events with the same offset one right after the other; and
    [handleMIDI] dispatches on the high nibble of the status byte. *)
Theorem splitBufferByEvents_partitions (buffer : AudioBuffer)
    (events : list MidiMessageMetadata) (p : Processor) :
  getNumSamples buffer < 2 ^ 31 ->
  time_ordered 0 events = true ->
  forallb (fun e => samplePosition e <? getNumSamples buffer) events = true ->
  let N := getNumSamples buffer in
  splitBufferByEvents buffer events p = (fold_left perform (calls N events) (p, buffer), [])
  /\ calls N events = schedule N 0 events
  /\ rendered_frames (calls N events) = frames 0 (length (left buffer))
  /\ midi_calls (calls N events) = flat_map midi_effect events
  /\ (forall pre e1 e2 post,
        events = pre ++ e1 :: e2 :: post -> samplePosition e1 = samplePosition e2 ->
        exists t1 t2, calls N events = t1 ++ midi_effect e1 ++ midi_effect e2 ++ t2)
  /\ (forall data0 data1 data2 q,
        handleMIDI data0 data1 data2 q
        = if status_nibble data0 =? 0x80 then noteOff (byte_val data1) q
          else if status_nibble data0 =? 0x90 then
            (if 0 <? byte_val data2 then noteOn (byte_val data1) (byte_val data2) q
             else noteOff (byte_val data1) q)
          else q).
Proof.
  intros HN Hord Hlt N.
  assert (HN0 : 0 <= N < 2 ^ 31) by (unfold N, getNumSamples in *; lia).
  destruct (splitBufferByEventsWith_schedule render handle N events (p, buffer) HN0 Hord Hlt)
    as [E C].
  split; [| split; [exact C | split; [| split; [| split]]]].
  - unfold splitBufferByEvents. fold handle. fold N. rewrite E, C. reflexivity.
  - rewrite C, schedule_frames; try assumption; [| lia].
    f_equal. unfold N, getNumSamples. lia.
  - rewrite C. apply schedule_midi_calls.
  - intros pre e1 e2 post -> Heq. rewrite C. now apply schedule_same_offset.
  - apply handleMIDI_dispatch.
Qed.

(** C10.  An event of more than three bytes, or whose status nibble is
    neither 0x8 nor 0x9, still ends the current span: the loop renders
    the frames up to its time stamp and moves the cursor there, and
    nothing else changes. *)
Theorem ignored_event_still_splits (e : MidiMessageMetadata) (bufferOffset : Z)
    (st : Processor * AudioBuffer) :
  0 <= bufferOffset <= samplePosition e -> samplePosition e < 2 ^ 31 ->
  3 < numBytes e
  \/ (status_nibble (data_at e 0) <> 0x80 /\ status_nibble (data_at e 0) <> 0x90) ->
  splitStep render
    (fun data0 data1 data2 st => (handleMIDI data0 data1 data2 (fst st), snd st))
    (bufferOffset, st) e
  = (samplePosition e,
     if bufferOffset <? samplePosition e
     then render (samplePosition e - bufferOffset) bufferOffset st
     else st).
Proof.
  intros Hc Hp Hig.
  destruct (splitStep_calls render handle bufferOffset st [] e Hc Hp) as [E _].
  fold handle. rewrite E. f_equal. unfold midi_effect.
  destruct Hig as [Hlong | [H8 H9]].
  - replace (numBytes e <=? 3) with false by (symmetry; apply Z.leb_gt; exact Hlong).
    rewrite app_nil_r. now destruct (bufferOffset <? samplePosition e).
  - assert (Hid : forall d1 d2 s, handle (data_at e 0) d1 d2 s = s).
    { intros d1 d2 [q b]. unfold handle. cbn [fst snd]. rewrite handleMIDI_dispatch.
      destruct (Z.eqb_spec (status_nibble (data_at e 0)) 128); [contradiction |].
      destruct (Z.eqb_spec (status_nibble (data_at e 0)) 144); [contradiction |].
      reflexivity. }
    rewrite fold_left_app.
    destruct (numBytes e <=? 3); cbn [fold_left performWith]; rewrite ?Hid;
      now destruct (bufferOffset <? samplePosition e).
Qed.

End EventScheduler.

(** A block of four frames with a note-on and a note-off, both at offset
    1: the spans are [0, 1) and [1, 4), and nothing is rendered between
    the two events. *)
Lemma splitBufferByEvents_partitions_witness :
  calls 4 [mkMidi 1 [x90; x3c; x64]; mkMidi 1 [x80; x3c; x00]]
  = [Render 1 0; Midi x90 x3c x64; Midi x80 x3c x00; Render 3 1]
  /\ rendered_frames (calls 4 [mkMidi 1 [x90; x3c; x64]; mkMidi 1 [x80; x3c; x00]])
     = [0; 1; 2; 3].
Proof.
  pose proof (@splitBufferByEvents_partitions libm_example
                block4
                [mkMidi 1 [x90; x3c; x64]; mkMidi 1 [x80; x3c; x00]] p_example
                eq_refl eq_refl eq_refl) as (_ & C & F & _).
  split; [exact C | exact F].
Defined.

(** A system-exclusive message of five bytes at offset 2 of a block: the
    frames [0, 2) are rendered and the cursor is at 2. *)
Lemma ignored_event_still_splits_witness :
  splitStep (@render libm_example)
    (fun data0 data1 data2 st => (@handleMIDI libm_example data0 data1 data2 (fst st), snd st))
    (0, (p_example, block4))
    (mkMidi 2 [xf0; x01; x02; x03; xf7])
  = (2, @render libm_example 2 0 (p_example, block4)).
Proof.
  apply (@ignored_event_still_splits libm_example (mkMidi 2 [xf0; x01; x02; x03; xf7]) 0
           (p_example, block4)).
  - cbn. lia.
  - reflexivity.
  - left. reflexivity.
Defined.

(** ** The WAV file written by [cli/main.cpp] *)

Section Wav.







Context {libm : Libm}.








End Wav.

(** Outside the range of its conversions the program has no file to
    show: a sample beyond the range of [int16_t] and a sample count that
    is not a number leave the behaviour undefined, and a negative sample
    count ends the program in [new]. *)
Lemma main_outside_conversions :
  @Cli.main libm_example true loud_take = Cli.Undefined
  /\ @Cli.main libm_example true endless_take = Cli.Undefined
  /\ @Cli.main libm_example true negative_take = Cli.Terminated.
Proof. vm_compute. repeat split. Qed.

(** The length field of the RIFF chunk, as the code writes it. *)
Lemma wav_riff_length_field :
  exists file,
    @Cli.main libm_example true short_take = Cli.Returned 0 (Some file)
    /\ length file = 52%nat
    /\ field 4 4 file = 52
    /\ field 40 4 file = 8.
Proof. eexists. vm_compute. repeat split. Qed.



(** ** Further properties of the engine *)

Section GuardPostcondition.

Lemma fgt_false_fle (x y : spec_float) :
  isnan x = false -> isnan y = false -> fgt x y = false -> fle x y = true.
Proof.
  unfold fgt, fle, SFltb, SFleb. intros Hx Hy.
  destruct (SFcompare y x) as [c |] eqn:E.
  - rewrite (SFcompare_antisym _ _ _ E). destruct c; simpl; congruence.
  - apply SFcompare_nan_iff in E. destruct E; congruence.
Qed.

Lemma clamp_bounded (x : float32) :
  silences x = false -> in_range (clamp x) = true.
Proof.
  intros H. unfold silences in H.
  apply orb_false_elim in H as [H _]. apply orb_false_elim in H as [Hn _].
  unfold clamp. destruct (magnitude_exceeds x f1_0) eqn:E.
  - now destruct (flt x f0_0).
  - unfold magnitude_exceeds in E. apply fgt_false_fle; [| reflexivity | exact E].
    now destruct x.
Qed.

(** A sample in range is left alone by every test of the loop. *)
Lemma in_range_passes (x : float32) :
  in_range x = true ->
  silences x = false /\ magnitude_exceeds x f1_0 = false /\ clamp x = x.
Proof.
  intros H.
  assert (E1 : magnitude_exceeds x f1_0 = false).
  { unfold magnitude_exceeds. apply fle_fgt_false. exact H. }
  assert (E2 : magnitude_exceeds x f2_0 = false).
  { unfold in_range in H. destruct x as [s | s | | s m e]; try reflexivity; try discriminate.
    unfold magnitude_exceeds, fgt, SFltb. unfold fle, SFleb in H. cbn [SFabs] in *.
    unfold f1_0 in H. unfold f2_0. cbn [SFcompare] in *.
    destruct (e ?= -23) eqn:C; try discriminate.
    - apply Z.compare_eq in C. now subst e.
    - rewrite Z.compare_lt_iff in C.
      replace (-22 ?= e) with Gt by (symmetry; apply Z.compare_gt_iff; lia). reflexivity. }
  repeat split.
  - unfold silences. rewrite E2.
    unfold in_range in H. now destruct x as [s | s | | s m e].
  - exact E1.
  - unfold clamp. now rewrite E1.
Qed.

Lemma in_range_all_pass (span : list float32) :
  forallb in_range span = true ->
  existsb silences span = false
  /\ existsb (fun x => magnitude_exceeds x f1_0) span = false
  /\ map clamp span = span.
Proof.
  induction span as [| x rest IH]; [now repeat split |].
  cbn [forallb existsb map]. intros H. apply andb_prop in H as [Hx Hr].
  destruct (in_range_passes x Hx) as (-> & -> & ->).
  destruct (IH Hr) as (-> & -> & ->). now repeat split.
Qed.

(** What the loop prints when it does not give up the span: the
    clamping warning, once, if the flag is still set and a sample is
    clamped. *)
Lemma protectLoop_log (span : list float32) :
  forall firstWarning, existsb silences span = false ->
  snd (protectLoop span firstWarning)
  = if firstWarning && existsb (fun x => magnitude_exceeds x f1_0) span
    then [RangeClamping] else [].
Proof.
  induction span as [| x rest IH]; intros fw H; [now destruct fw |].
  cbn [existsb] in H. apply orb_false_elim in H as [Hx Hr].
  cbn [protectLoop existsb]. rewrite silences_code in Hx.
  assert (M : magnitude_exceeds x f1_0 = flt x fm1_0 || fgt x f1_0)
    by apply magnitude_exceeds_two_sided.
  rewrite M.
  destruct (isnan x); [discriminate |]. destruct (isinf x); [discriminate |].
  cbn [orb] in Hx. rewrite Hx.
  destruct (flt x fm1_0); [| destruct (fgt x f1_0)]; cbn [orb].
  - specialize (IH false Hr). destruct (protectLoop rest false) as [r log].
    cbn [snd] in *. rewrite IH. cbn [andb]. rewrite andb_true_r, app_nil_r. reflexivity.
  - specialize (IH false Hr). destruct (protectLoop rest false) as [r log].
    cbn [snd] in *. rewrite IH. cbn [andb]. rewrite andb_true_r, app_nil_r. reflexivity.
  - specialize (IH fw Hr). destruct (protectLoop rest fw) as [r log].
    cbn [snd] in *. exact IH.
Qed.

(** The span the guard leaves: as long as the one it was given, and in
    range. *)
Lemma guard_span (span : list float32) :
  exists s, fst (protectYourEars (Some span)) = Some s
            /\ length s = length span
            /\ forallb in_range s = true.
Proof.
  pose proof (protectLoop_result span true) as R. unfold protectYourEars.
  destruct (existsb silences span) eqn:E.
  - exists (repeat f0_0 (length span)).
    destruct (protectLoop span true) as [[b |] log]; [discriminate |].
    split; [reflexivity |]. split; [apply repeat_length |].
    generalize (length span) as n. induction n as [| n IH]; [reflexivity | exact IH].
  - exists (map clamp span).
    destruct (protectLoop span true) as [[b |] log]; [| discriminate].
    cbn [fst] in *. split; [exact R |]. split; [apply length_map |].
    clear R. induction span as [| x rest IH]; [reflexivity |].
    cbn [existsb] in E. apply orb_false_elim in E as [Ex Er].
    cbn [map forallb]. now rewrite (clamp_bounded x Ex), IH.
Qed.

Lemma guard_transparent (span : list float32) :
  forallb in_range span = true -> protectYourEars (Some span) = (Some span, []).
Proof.
  intros H. destruct (in_range_all_pass span H) as (E1 & E2 & E3).
  pose proof (protectLoop_result span true) as R.
  pose proof (protectLoop_log span true E1) as L.
  rewrite E1, E3 in R. rewrite E2 in L. unfold protectYourEars.
  destruct (protectLoop span true) as [r log]. cbn [fst snd andb] in *. now subst.
Qed.

(** Whatever the span, what [protectYourEars] leaves in it has the same
    length and only samples of magnitude at most 1.0 (so none is NaN or
    infinite); a second pass of the guard over it changes nothing and
    prints nothing. *)
Theorem protectYourEars_output_bounded (buffer : list float32) :
  exists b, fst (protectYourEars (Some buffer)) = Some b
            /\ length b = length buffer
            /\ forallb in_range b = true
            /\ protectYourEars (Some b) = (Some b, []).
Proof.
  destruct (guard_span buffer) as (b & E & L & B).
  exists b. repeat split; try assumption. now apply guard_transparent.
Qed.

(** A span that is not given up comes out clamped, and the clamping
    warning is printed once if a sample was out of range, however many
    were, and not at all otherwise. *)
Theorem clamping_warned_once (buffer : list float32) :
  existsb silences buffer = false ->
  protectYourEars (Some buffer)
  = (Some (map clamp buffer),
     if existsb (fun x => magnitude_exceeds x f1_0) buffer then [RangeClamping] else []).
Proof.
  intros E.
  pose proof (protectLoop_result buffer true) as R.
  pose proof (protectLoop_log buffer true E) as L.
  rewrite E in R. unfold protectYourEars.
  destruct (protectLoop buffer true) as [r log]. cbn [fst snd andb] in *. now subst.
Qed.

End GuardPostcondition.

(** Two samples at 1.5: both are clamped and the warning is printed
    once. *)
Lemma clamping_warned_once_witness :
  protectYourEars (Some [f0_25; f1_5; f1_5]) = (Some [f0_25; f1_0; f1_0], [RangeClamping]).
Proof. exact (clamping_warned_once [f0_25; f1_5; f1_5] eq_refl). Defined.

Section WholeBlock.
Context {libm : Libm}.

(** The phase stays a well-formed double in [0, 2 pi], and the increment
    is untouched, over any number of frames of [render]. *)
Theorem renderLoop_phase_within_two_pi (n : nat) (p : Processor) :
  valid_binary (phase p) = true -> valid_binary (inc p) = true ->
  within_two_pi (phase p) = true -> within_two_pi (inc p) = true ->
  let q := fst (renderLoop n p) in
  valid_binary (phase q) = true /\ within_two_pi (phase q) = true /\ inc q = inc p.
Proof.
  revert p. induction n as [| n IH]; intros p Vp Vi Hp Hi; [now repeat split |].
  cbn [renderLoop].
  assert (F : valid_binary (phase (fst (renderFrame p))) = true
              /\ within_two_pi (phase (fst (renderFrame p))) = true
              /\ inc (fst (renderFrame p)) = inc p).
  { unfold renderFrame.
    destruct ((0 <? activeNote p) || fgt (env p) (double_of_float f0_0)); [| now repeat split].
    change (valid_binary (advance (phase p) (inc p)) = true
            /\ within_two_pi (advance (phase p) (inc p)) = true /\ inc p = inc p).
    destruct (advance_within_two_pi (phase p) (inc p) Vp Vi Hp Hi) as [A B]. now repeat split. }
  destruct (renderFrame p) as [p1 o]. cbn [fst] in F. destruct F as (V1 & H1 & I1).
  specialize (IH p1 V1). rewrite I1 in IH. specialize (IH Vi H1 Hi).
  destruct (renderLoop n p1) as [p2 os]. exact IH.
Qed.

End WholeBlock.

(** The example state, three frames on. *)
Lemma renderLoop_phase_within_two_pi_witness :
  within_two_pi (phase (fst (@renderLoop libm_example 3 p_example))) = true.
Proof.
  apply (@renderLoop_phase_within_two_pi libm_example 3 p_example); reflexivity.
Defined.

(** A sample rate of 48000: the slope after a note-on is a number. *)
Lemma note_slopes_not_nan_witness :
  isnan (envSlope (@noteOn libm_example 60 100 p_example)) = false.
Proof.
  exact (proj1 (@note_slopes_not_nan libm_example 60 100 p_example eq_refl)).
Defined.

Section BlockRenderer.
Context {libm : Libm}.

Lemma protectYourEars_some (span : list float32) :
  exists s, fst (protectYourEars (Some span)) = Some s /\ length s = length span.
Proof.
  pose proof (protectLoop_result span true) as R. unfold protectYourEars.
  destruct (protectLoop span true) as [[b |] log]; cbn [fst] in *.
  - exists b. split; [reflexivity |].
    destruct (existsb silences span); [discriminate |].
    injection R as ->. apply length_map.
  - eexists. split; [reflexivity | apply repeat_length].
Qed.

Lemma renderLoop_length (n : nat) : forall p, length (snd (renderLoop n p)) = n.
Proof.
  induction n as [| n IH]; intros p; [reflexivity |].
  cbn [renderLoop]. destruct (renderFrame p) as [p1 o]. specialize (IH p1).
  destruct (renderLoop n p1) as [p2 os]. cbn in *. now rewrite IH.
Qed.

Lemma write_span_spec (channel span : list float32) (offset : Z) :
  0 <= offset -> (Z.to_nat offset + length span <= length channel)%nat ->
  let c := write_span channel offset span in
  length c = length channel
  /\ firstn (Z.to_nat offset) c = firstn (Z.to_nat offset) channel
  /\ firstn (length span) (skipn (Z.to_nat offset) c) = span
  /\ skipn (Z.to_nat offset + length span) c
     = skipn (Z.to_nat offset + length span) channel.
Proof.
  intros Ho Hl c. subst c. unfold write_span.
  set (o := Z.to_nat offset) in *.
  assert (Lf : length (firstn o channel) = o) by (apply firstn_length_le; lia).
  repeat split.
  - rewrite !length_app, Lf, length_skipn. lia.
  - rewrite firstn_app, Lf, Nat.sub_diag, firstn_O, app_nil_r.
    rewrite firstn_firstn. f_equal. lia.
  - rewrite skipn_app, Lf, Nat.sub_diag, skipn_O.
    rewrite (skipn_all2 (firstn o channel)) by lia. cbn [app].
    rewrite firstn_app, Nat.sub_diag, firstn_O, app_nil_r. apply firstn_all.
  - rewrite app_assoc, skipn_app, length_app, Lf, Nat.sub_diag, skipn_O.
    rewrite skipn_all2 by (rewrite length_app, Lf; lia). reflexivity.
Qed.

(** [render] fills the span [bufferOffset, bufferOffset + sampleCount)
    of the left channel and nothing else of it, and with two channels
    the right channel receives the same samples on that span. *)
Theorem render_fills_span (sampleCount bufferOffset : Z) (p : Processor)
    (buffer : AudioBuffer) :
  0 <= bufferOffset -> 0 <= sampleCount ->
  bufferOffset + sampleCount <= getNumSamples buffer ->
  (forall r, right buffer = Some r -> length r = length (left buffer)) ->
  let b := snd (render sampleCount bufferOffset (p, buffer)) in
  let o := Z.to_nat bufferOffset in
  let n := Z.to_nat sampleCount in
  length (left b) = length (left buffer)
  /\ firstn o (left b) = firstn o (left buffer)
  /\ skipn (o + n) (left b) = skipn (o + n) (left buffer)
  /\ (forall r, right buffer = Some r ->
      exists r', right b = Some r'
                 /\ length r' = length r
                 /\ firstn n (skipn o r') = firstn n (skipn o (left b))
                 /\ firstn o r' = firstn o r
                 /\ skipn (o + n) r' = skipn (o + n) r).
Proof.
  intros Ho Hn Hle Hr b o n. subst b. unfold render.
  pose proof (renderLoop_length n p) as L. fold n.
  destruct (renderLoop n p) as [p' outs]. cbn [snd] in L.
  destruct (protectYourEars_some (map float_of_double outs)) as (s & Es & Ls).
  rewrite length_map, L in Ls.
  unfold getNumSamples in Hle.
  cbn [snd left right]. rewrite Es. cbn [store_span].
  destruct (write_span_spec (left buffer) s bufferOffset Ho) as (W1 & W2 & W3 & W4);
    [fold o; lia |].
  fold o in W1, W2, W3, W4. rewrite Ls in W3, W4.
  repeat split; try assumption.
  intros r Er. rewrite Er. cbn [option_map]. rewrite Es. cbn [store_span].
  specialize (Hr r Er).
  destruct (write_span_spec r s bufferOffset Ho) as (R1 & R2 & R3 & R4); [fold o; lia |].
  fold o in R1, R2, R3, R4. rewrite Ls in R3, R4.
  eexists. split; [reflexivity |]. repeat split; try assumption. now rewrite R3, W3.
Qed.

Lemma renderLoop_silent (n : nat) (p : Processor) :
  activeNote p = 0 -> feq (env p) d0_0 = true ->
  renderLoop n p = (p, repeat d0_0 n).
Proof.
  intros Hn He.
  assert (F : renderFrame p = (p, d0_0)).
  { unfold renderFrame. rewrite Hn, (feq_zero_not_gt _ He). reflexivity. }
  induction n as [| n IH]; cbn [renderLoop repeat]; [reflexivity |].
  now rewrite F, IH.
Qed.

Lemma protectLoop_zeros (n : nat) (firstWarning : bool) :
  protectLoop (repeat f0_0 n) firstWarning = (Some (repeat f0_0 n), []).
Proof.
  induction n as [| n IH]; [reflexivity |].
  cbn [repeat]. change (protectLoop (f0_0 :: repeat f0_0 n) firstWarning)
    with (let '(r, log) := protectLoop (repeat f0_0 n) firstWarning in
          (option_map (cons f0_0) r, log)).
  now rewrite IH.
Qed.

Lemma render_silent (sampleCount bufferOffset : Z) (p : Processor) (buffer : AudioBuffer) :
  silent p = true ->
  let zeros := repeat f0_0 (Z.to_nat sampleCount) in
  render sampleCount bufferOffset (p, buffer)
  = (p, mkBuffer (write_span (left buffer) bufferOffset zeros)
          (option_map (fun r => write_span r bufferOffset zeros) (right buffer))).
Proof.
  intros Hs zeros. unfold silent in Hs. apply andb_prop in Hs as [Hn He].
  apply Z.eqb_eq in Hn.
  assert (Z0 : protectYourEars (Some zeros) = (Some zeros, [])).
  { unfold protectYourEars, zeros. now rewrite protectLoop_zeros. }
  unfold render. rewrite (renderLoop_silent _ p Hn He).
  replace (map float_of_double (repeat d0_0 (Z.to_nat sampleCount))) with zeros
    by (unfold zeros; now rewrite map_repeat).
  rewrite Z0. cbn [fst store_span]. f_equal. f_equal.
  destruct (right buffer) as [r |]; [| reflexivity].
  cbn [option_map]. rewrite Z0. reflexivity.
Qed.

(** On a silent voice [render] writes zeros to its span, prints nothing
    and leaves the processor as it was. *)
Theorem render_silent_span (sampleCount bufferOffset : Z) (p : Processor)
    (buffer : AudioBuffer) :
  activeNote p = 0 -> feq (env p) d0_0 = true ->
  let zeros := repeat f0_0 (Z.to_nat sampleCount) in
  render sampleCount bufferOffset (p, buffer)
  = (p, mkBuffer (write_span (left buffer) bufferOffset zeros)
          (option_map (fun r => write_span r bufferOffset zeros) (right buffer)))
  /\ protectYourEars (Some zeros) = (Some zeros, []).
Proof.
  intros Hn He zeros. split.
  - apply render_silent. unfold silent. now rewrite Hn, He.
  - unfold protectYourEars, zeros. now rewrite protectLoop_zeros.
Qed.

End BlockRenderer.

(** Two frames from offset 1 of a block of four. *)
Lemma render_fills_span_witness :
  length (left (snd (@render libm_example 2 1 (p_example, block4)))) = 4%nat.
Proof.
  apply (@render_fills_span libm_example 2 1 p_example block4);
    [lia | lia | cbn; lia | discriminate].
Defined.

(** A silent voice and the same span. *)
Lemma render_silent_span_witness :
  @render libm_example 2 1 (mkProcessor Cli.d48000 0 d440_0 d0_5 d0_0 dm1_0 PI PI, block4)
  = (mkProcessor Cli.d48000 0 d440_0 d0_5 d0_0 dm1_0 PI PI, block4).
Proof.
  apply (@render_silent_span libm_example 2 1
           (mkProcessor Cli.d48000 0 d440_0 d0_5 d0_0 dm1_0 PI PI) block4); reflexivity.
Defined.

(** ** The envelope: direction of travel *)

Section EnvelopeDirection.

Local Abbreviation units := (ulps prec emax).

Let Hprec : 0 < prec := eq_refl.

Lemma fle_canonical (m1 m2 : positive) (e1 e2 : Z) :
  canonical_mantissa prec emax m1 e1 = true -> canonical_mantissa prec emax m2 e2 = true ->
  fle (S754_finite false m1 e1) (S754_finite false m2 e2) = true
  <-> units (Z.pos m1) e1 <= units (Z.pos m2) e2.
Proof.
  intros C1 C2. unfold fle, SFleb.
  rewrite (SFcompare_canonical prec emax Hprec m1 m2 e1 e2 C1 C2).
  rewrite <- Z.compare_le_iff.
  destruct (units (Z.pos m1) e1 ?= units (Z.pos m2) e2); split; congruence.
Qed.

Lemma valid_canonical (s : bool) (m : positive) (e : Z) :
  valid_binary (S754_finite s m e) = true -> canonical_mantissa prec emax m e = true.
Proof. cbn [valid_binary]. unfold bounded. intros H. now apply andb_prop in H. Qed.

(** The three shapes of a double that is at least zero, and of one that
    is at most zero. *)
Lemma nonneg_inv (x : double) :
  fle d0_0 x = true ->
  (exists s, x = S754_zero s) \/ x = S754_infinity false
  \/ (exists m e, x = S754_finite false m e).
Proof.
  destruct x as [s | [] | | [] m e]; try discriminate; intros _; eauto.
Qed.

Lemma nonpos_inv (x : double) :
  fle x d0_0 = true ->
  (exists s, x = S754_zero s) \/ x = S754_infinity true
  \/ (exists m e, x = S754_finite true m e).
Proof.
  destruct x as [s | [] | | [] m e]; try discriminate; intros _; eauto.
Qed.

(** A level in the unit interval is a zero or a positive finite number
    of value at most one. *)
Lemma in_unit_interval_inv (x : double) :
  valid_binary x = true -> in_unit_interval x = true ->
  (exists s, x = S754_zero s)
  \/ (exists m e, x = S754_finite false m e
                  /\ canonical_mantissa prec emax m e = true
                  /\ units (Z.pos m) e <= units 4503599627370496 (-52)).
Proof.
  intros V H. unfold in_unit_interval in H. apply andb_prop in H as [H0 H1].
  destruct x as [s | s | | s m e]; try discriminate.
  - left. now exists s.
  - destruct s; discriminate.
  - destruct s; [discriminate |]. right. exists m, e.
    pose proof (valid_canonical _ _ _ V) as C. repeat split; [exact C |].
    now apply (fle_canonical m 4503599627370496 e (-52) C eq_refl).
Qed.

(** The clamp applied to a positive finite canonical number. *)
Lemma clamp_positive (m : positive) (e : Z) :
  canonical_mantissa prec emax m e = true ->
  let r := S754_finite false m e in
  let c := if fge r (double_of_float f1_0) then double_of_float f1_0
           else if fle r (double_of_float f0_0) then double_of_float f0_0 else r in
  (units 4503599627370496 (-52) <= units (Z.pos m) e -> c = d1_0)
  /\ (units (Z.pos m) e < units 4503599627370496 (-52) -> c = r).
Proof.
  intros C r c. subst c r.
  change (double_of_float f1_0) with (S754_finite false 4503599627370496 (-52)).
  change (double_of_float f0_0) with d0_0.
  change (fge (S754_finite false m e) (S754_finite false 4503599627370496 (-52)))
    with (fle (S754_finite false 4503599627370496 (-52)) (S754_finite false m e)).
  split; intros H.
  - apply (fle_canonical 4503599627370496 m (-52) e eq_refl C) in H. now rewrite H.
  - destruct (fle (S754_finite false 4503599627370496 (-52)) (S754_finite false m e)) eqn:E.
    + apply (fle_canonical 4503599627370496 m (-52) e eq_refl C) in E. lia.
    + reflexivity.
Qed.

(** With a slope that is at least zero the level does not fall, and a
    level of one stays at one. *)
Lemma envelope_step_attack (level slope : double) :
  valid_binary level = true -> valid_binary slope = true ->
  in_unit_interval level = true -> fle d0_0 slope = true ->
  valid_binary (envelope_step level slope) = true
  /\ fle level (envelope_step level slope) = true
  /\ (feq level d1_0 = true -> envelope_step level slope = d1_0).
Proof.
  intros Vl Vs Hl Hs. unfold envelope_step.
  destruct (in_unit_interval_inv level Vl Hl) as [[sl ->] | (ml & el & -> & Cl & Ul)];
    destruct (nonneg_inv slope Hs) as [[ss ->] | [-> | (ms & es & ->)]].
  - destruct sl, ss; repeat split; discriminate.
  - destruct sl; repeat split; discriminate.
  - change (fadd (S754_zero sl) (S754_finite false ms es)) with (S754_finite false ms es).
    pose proof (valid_canonical _ _ _ Vs) as Cs.
    destruct (clamp_positive ms es Cs) as [K1 K2].
    split; [| split; [| destruct sl; discriminate]].
    + destruct (Z.le_gt_cases (units 4503599627370496 (-52)) (units (Z.pos ms) es)).
      * now rewrite K1.
      * rewrite K2 by assumption. exact Vs.
    + destruct (Z.le_gt_cases (units 4503599627370496 (-52)) (units (Z.pos ms) es)).
      * rewrite K1 by assumption. now destruct sl.
      * rewrite K2 by assumption. now destruct sl.
  - change (fadd (S754_finite false ml el) (S754_zero ss)) with (S754_finite false ml el).
    destruct (clamp_positive ml el Cl) as [K1 K2].
    destruct (Z.le_gt_cases (units 4503599627370496 (-52)) (units (Z.pos ml) el)) as [G | G].
    + rewrite K1 by assumption. repeat split.
      now apply (fle_canonical ml 4503599627370496 el (-52) Cl eq_refl).
    + rewrite K2 by assumption. repeat split; [exact Vl | | ].
      * apply (fle_canonical ml ml el el Cl Cl). lia.
      * intros F. exfalso. unfold feq, SFeqb, d1_0 in F.
        rewrite (SFcompare_canonical prec emax Hprec ml 4503599627370496 el (-52) Cl eq_refl) in F.
        apply Z.compare_lt_iff in G. now rewrite G in F.
  - repeat split. now apply (fle_canonical ml 4503599627370496 el (-52) Cl eq_refl).
  - pose proof (valid_canonical _ _ _ Vs) as Cs.
    pose proof (units_pos prec emax ms es) as Ps.
    destruct (canonical_inv prec emax ms es Cs) as (Hes & _). specialize (Ps Hes).
    destruct (SFadd_lower prec emax Hprec ml ms ml el es el Cl Cs Cl ltac:(lia))
      as [E | (mr & er & E & Br & Ur)]; unfold fadd, SF64add; rewrite E.
    + repeat split. now apply (fle_canonical ml 4503599627370496 el (-52) Cl eq_refl).
    + pose proof Br as Cr. unfold bounded in Cr. apply andb_prop in Cr as [Cr _].
      destruct (clamp_positive mr er Cr) as [K1 K2].
      destruct (Z.le_gt_cases (units 4503599627370496 (-52)) (units (Z.pos mr) er)) as [G | G].
      * rewrite K1 by assumption. repeat split.
        now apply (fle_canonical ml 4503599627370496 el (-52) Cl eq_refl).
      * rewrite K2 by assumption. repeat split; [exact Br | | ].
        -- now apply (fle_canonical ml mr el er Cl Cr).
        -- intros F. exfalso. unfold feq, SFeqb, d1_0 in F.
           rewrite (SFcompare_canonical prec emax Hprec ml 4503599627370496 el (-52) Cl eq_refl)
             in F.
           destruct (Z.compare_spec (units (Z.pos ml) el) (units 4503599627370496 (-52)));
             try discriminate. lia.
Qed.

(** With a slope that is at most zero the level does not rise. *)
Lemma envelope_step_release (level slope : double) :
  valid_binary level = true -> valid_binary slope = true ->
  in_unit_interval level = true -> fle slope d0_0 = true ->
  valid_binary (envelope_step level slope) = true
  /\ fle (envelope_step level slope) level = true.
Proof.
  intros Vl Vs Hl Hs. unfold envelope_step.
  destruct (in_unit_interval_inv level Vl Hl) as [[sl ->] | (ml & el & -> & Cl & Ul)];
    destruct (nonpos_inv slope Hs) as [[ss ->] | [-> | (ms & es & ->)]].
  - destruct sl, ss; repeat split; discriminate.
  - destruct sl; repeat split; discriminate.
  - destruct sl; repeat split; discriminate.
  - change (fadd (S754_finite false ml el) (S754_zero ss)) with (S754_finite false ml el).
    destruct (clamp_positive ml el Cl) as [K1 K2].
    destruct (Z.le_gt_cases (units 4503599627370496 (-52)) (units (Z.pos ml) el)) as [G | G].
    + rewrite K1 by assumption. split; [reflexivity |].
      now apply (fle_canonical 4503599627370496 ml (-52) el eq_refl Cl).
    + rewrite K2 by assumption. split; [exact Vl |].
      apply (fle_canonical ml ml el el Cl Cl). lia.
  - now repeat split.
  - pose proof (valid_canonical _ _ _ Vs) as Cs.
    destruct (canonical_inv prec emax ml el Cl) as (Hel & _).
    destruct (canonical_inv prec emax ms es Cs) as (Hes & _).
    unfold fadd, SF64add. cbn [SFadd cond_Zopp]. set (ez := Z.min el es).
    assert (Hez : SpecFloat.emin prec emax <= ez) by (unfold ez; lia).
    set (a := Z.pos (fst (shl_align ml el ez))). set (c := Z.pos (fst (shl_align ms es ez))).
    assert (Ua : units a ez = units (Z.pos ml) el)
      by (apply (units_align prec emax); unfold ez; lia).
    assert (Uc : units c ez = units (Z.pos ms) es)
      by (apply (units_align prec emax); unfold ez; lia).
    pose proof (units_pos prec emax ms es Hes) as Ps.
    destruct (a + - c) as [| d | d] eqn:E; cbn [binary_normalize].
    + now repeat split.
    + destruct (binary_round_upper prec emax Hprec d ml ez el Hez Vl) as (mr & er & Er & Br & Ur).
      { rewrite <- E. unfold ulps in *. lia. }
      rewrite Er.
      pose proof Br as Cr. unfold bounded in Cr. apply andb_prop in Cr as [Cr _].
      destruct (clamp_positive mr er Cr) as [K1 K2].
      destruct (Z.le_gt_cases (units 4503599627370496 (-52)) (units (Z.pos mr) er)) as [G | G].
      * rewrite K1 by assumption. split; [reflexivity |].
        apply (fle_canonical 4503599627370496 ml (-52) el eq_refl Cl). lia.
      * rewrite K2 by assumption. split; [exact Br |].
        now apply (fle_canonical mr ml er el Cr Cl).
    + pose proof (binary_round_sign prec emax true d ez) as S.
      destruct (binary_round prec emax true d ez) as [sx | sx | | sx mx ex]; cbn in S;
        try contradiction; subst sx; now repeat split.
Qed.

End EnvelopeDirection.

Section EnvelopeOverFrames.
Context {libm : Libm}.

Lemma renderFrame_env_step (p : Processor) :
  env (fst (renderFrame p))
  = if (0 <? activeNote p) || fgt (env p) d0_0
    then envelope_step (env p) (envSlope p) else env p.
Proof.
  unfold renderFrame, processSample. cbv zeta.
  change (double_of_float f0_0) with d0_0.
  destruct ((0 <? activeNote p) || fgt (env p) d0_0); reflexivity.
Qed.

(** [<=] is transitive on well-formed levels of the unit interval. *)
Lemma fle_unit_trans (a b c : double) :
  valid_binary a = true -> valid_binary b = true -> valid_binary c = true ->
  in_unit_interval a = true -> in_unit_interval b = true -> in_unit_interval c = true ->
  fle a b = true -> fle b c = true -> fle a c = true.
Proof.
  intros Va Vb Vc Ha Hb Hc.
  destruct (in_unit_interval_inv a Va Ha) as [[sa ->] | (ma & ea & -> & Ca & _)];
    destruct (in_unit_interval_inv c Vc Hc) as [[sc ->] | (mc & ec & -> & Cc & _)];
    destruct (in_unit_interval_inv b Vb Hb) as [[sb ->] | (mb & eb & -> & Cb & _)];
    try reflexivity; try discriminate.
  intros H1 H2.
  apply (fle_canonical ma mb ea eb Ca Cb) in H1.
  apply (fle_canonical mb mc eb ec Cb Cc) in H2.
  apply (fle_canonical ma mc ea ec Ca Cc). lia.
Qed.

Lemma fle_unit_refl (a : double) :
  in_unit_interval a = true -> fle a a = true.
Proof.
  unfold in_unit_interval. intros H. apply andb_prop in H as [H0 H1].
  destruct a as [s | [] | | [] m e]; try reflexivity; try discriminate.
  unfold fle, SFleb. cbn [SFcompare]. rewrite Z.compare_refl.
  change (PosDef.Pos.compare_cont Eq m m) with (Pos.compare m m).
  now rewrite Pos.compare_refl.
Qed.

Lemma fle_zero_not_nan (x : double) : fle d0_0 x = true -> isnan x = false.
Proof. now destruct x. Qed.

Lemma fle_not_nan_zero (x : double) : fle x d0_0 = true -> isnan x = false.
Proof. now destruct x. Qed.

(** While the slope is at least zero (a note is held) the level never
    falls from one frame to a later one, and a level of 1.0 is kept. *)
Theorem attack_never_falls (n : nat) (p : Processor) :
  valid_binary (env p) = true -> valid_binary (envSlope p) = true ->
  in_unit_interval (env p) = true -> fle d0_0 (envSlope p) = true ->
  let q := fst (renderLoop n p) in
  valid_binary (env q) = true
  /\ fle (env p) (env q) = true
  /\ (env p = d1_0 -> env q = d1_0).
Proof.
  intros Ve Vs He Hs q. subst q.
  assert (G : valid_binary (env (fst (renderLoop n p))) = true
              /\ in_unit_interval (env (fst (renderLoop n p))) = true
              /\ fle (env p) (env (fst (renderLoop n p))) = true
              /\ (env p = d1_0 -> env (fst (renderLoop n p)) = d1_0));
    [| now destruct G as (G1 & _ & G2 & G3)].
  revert p Ve Vs He Hs. induction n as [| n IH]; intros p Ve Vs He Hs.
  - cbn. repeat split; auto. now apply fle_unit_refl.
  - cbn [renderLoop].
    pose proof (renderFrame_env_step p) as E.
    pose proof (renderFrame_envSlope p) as S.
    assert (F : valid_binary (env (fst (renderFrame p))) = true
                /\ in_unit_interval (env (fst (renderFrame p))) = true
                /\ fle (env p) (env (fst (renderFrame p))) = true
                /\ (env p = d1_0 -> env (fst (renderFrame p)) = d1_0)).
    { rewrite E. destruct ((0 <? activeNote p) || fgt (env p) d0_0).
      - destruct (envelope_step_attack (env p) (envSlope p) Ve Vs He Hs) as (A1 & A2 & A3).
        repeat split; try assumption.
        + apply envelope_step_in_unit_interval; [exact He | now apply fle_zero_not_nan].
        + intros K. apply A3. now rewrite K.
      - repeat split; auto. now apply fle_unit_refl. }
    destruct (renderFrame p) as [p1 o]. cbn [fst] in *.
    destruct F as (F1 & F2 & F3 & F4).
    rewrite <- S in Vs, Hs.
    destruct (IH p1 F1 Vs F2 Hs) as (I1 & I2 & I3 & I4).
    destruct (renderLoop n p1) as [p2 os]. cbn [fst] in *.
    repeat split; try assumption.
    + now apply (fle_unit_trans (env p) (env p1) (env p2)).
    + intros K. apply I4, F4, K.
Qed.

(** While the slope is at most zero (after the note-off) the level never
    rises from one frame to a later one. *)
Theorem release_never_rises (n : nat) (p : Processor) :
  valid_binary (env p) = true -> valid_binary (envSlope p) = true ->
  in_unit_interval (env p) = true -> fle (envSlope p) d0_0 = true ->
  let q := fst (renderLoop n p) in
  valid_binary (env q) = true /\ fle (env q) (env p) = true.
Proof.
  intros Ve Vs He Hs q. subst q.
  assert (G : valid_binary (env (fst (renderLoop n p))) = true
              /\ in_unit_interval (env (fst (renderLoop n p))) = true
              /\ fle (env (fst (renderLoop n p))) (env p) = true);
    [| now destruct G as (G1 & _ & G2)].
  revert p Ve Vs He Hs. induction n as [| n IH]; intros p Ve Vs He Hs.
  - cbn. repeat split; try assumption. now apply fle_unit_refl.
  - cbn [renderLoop].
    pose proof (renderFrame_env_step p) as E.
    pose proof (renderFrame_envSlope p) as S.
    assert (F : valid_binary (env (fst (renderFrame p))) = true
                /\ in_unit_interval (env (fst (renderFrame p))) = true
                /\ fle (env (fst (renderFrame p))) (env p) = true).
    { rewrite E. destruct ((0 <? activeNote p) || fgt (env p) d0_0).
      - destruct (envelope_step_release (env p) (envSlope p) Ve Vs He Hs) as (A1 & A2).
        repeat split; try assumption.
        apply envelope_step_in_unit_interval; [exact He | now apply fle_not_nan_zero].
      - repeat split; try assumption. now apply fle_unit_refl. }
    destruct (renderFrame p) as [p1 o]. cbn [fst] in *.
    destruct F as (F1 & F2 & F3).
    rewrite <- S in Vs, Hs.
    destruct (IH p1 F1 Vs F2 Hs) as (I1 & I2 & I3).
    destruct (renderLoop n p1) as [p2 os]. cbn [fst] in *.
    repeat split; try assumption.
    now apply (fle_unit_trans (env p2) (env p1) (env p)).
Qed.

End EnvelopeOverFrames.

(** Note 60 struck on the example state: three frames later the level is
    not below where it was. *)
Lemma attack_never_falls_witness :
  fle (env (@noteOn libm_example 60 100 p_example))
    (env (fst (@renderLoop libm_example 3 (@noteOn libm_example 60 100 p_example)))) = true.
Proof.
  destruct (@attack_never_falls libm_example 3 (@noteOn libm_example 60 100 p_example))
    as (_ & H & _); [reflexivity | reflexivity | reflexivity | reflexivity | exact H].
Defined.

(** Note 60 released on the example state: three frames later the level
    is not above where it was. *)
Lemma release_never_rises_witness :
  fle (env (fst (@renderLoop libm_example 3 (noteOff 60 p_example))))
    (env (noteOff 60 p_example)) = true.
Proof.
  destruct (@release_never_rises libm_example 3 (noteOff 60 p_example))
    as (_ & H); [reflexivity | reflexivity | reflexivity | reflexivity | exact H].
Defined.

Section SlopeDirection.
Context {libm : Libm}.

Lemma has_sign_nonneg (x : double) : has_sign false x -> fle d0_0 x = true.
Proof. destruct x as [s | s | | s m e]; cbn; intros H; now subst. Qed.

Lemma has_sign_nonpos (x : double) : has_sign true x -> fle x d0_0 = true.
Proof. destruct x as [s | s | | s m e]; cbn; intros H; now subst. Qed.

Lemma positive_has_sign (x : double) : flt d0_0 x = true -> has_sign false x.
Proof. destruct x as [s | [] | | [] m e]; try discriminate; reflexivity. Qed.

Lemma SFdiv_core_nonneg (m1 m2 : positive) (e1 e2 : Z) :
  0 <= fst (fst (SFdiv_core_binary prec emax (Z.pos m1) e1 (Z.pos m2) e2)).
Proof.
  destruct (SFdiv_core_binary prec emax (Z.pos m1) e1 (Z.pos m2) e2) as [[mz ez] lz] eqn:E.
  cbn [fst]. unfold SFdiv_core_binary in E.
  set (sh := e1 - e2 - _) in E.
  set (m' := match sh with Z.pos _ => Z.shiftl (Z.pos m1) sh | 0 => Z.pos m1 | Z.neg _ => 0 end) in E.
  assert (H' : 0 <= m').
  { subst m'. destruct sh; try lia. apply Z.shiftl_nonneg. lia. }
  pose proof (Z_div_mod m' (Z.pos m2) ltac:(lia)) as D.
  destruct (Z.div_eucl m' (Z.pos m2)) as [q r]. injection E as <- _ _.
  destruct D as [D1 D2]. nia.
Qed.

Lemma fmul_has_sign (x : double) (m : positive) (e : Z) :
  has_sign false x -> has_sign false (fmul x (S754_finite false m e)).
Proof.
  destruct x as [s | s | | s mx ex]; cbn [has_sign]; try contradiction; intros ->;
    try reflexivity.
  unfold fmul, SF64mul. cbn [SFmul xorb].
  apply binary_round_aux_sign. lia.
Qed.

Lemma fdiv_has_sign (s : bool) (m : positive) (e : Z) (y : double) :
  has_sign false y -> has_sign s (fdiv (S754_finite s m e) y).
Proof.
  destruct y as [sy | sy | | sy my ey]; cbn [has_sign]; try contradiction; intros ->;
    try (destruct s; reflexivity).
  unfold fdiv, SF64div. cbn [SFdiv].
  pose proof (SFdiv_core_nonneg m my e ey) as H.
  destruct (SFdiv_core_binary prec emax (Z.pos m) e (Z.pos my) ey) as [[mz ez] lz].
  cbn [fst] in H. replace (xorb s false) with s by now destruct s.
  now apply binary_round_aux_sign.
Qed.

(** With a positive sample rate the slope set by a note-on is at least
    zero and the slope set by the note-off of the sounding note is at
    most zero. *)
Theorem note_slope_direction (note velocity : Z) (p : Processor) :
  flt d0_0 (sampleRate p) = true ->
  fle d0_0 (envSlope (noteOn note velocity p)) = true
  /\ fle (envSlope (noteOff (activeNote p) p)) d0_0 = true.
Proof.
  intros Hr. apply positive_has_sign in Hr. split.
  - change (fle d0_0 (fdiv d1_0 (fmul (sampleRate p) (double_of_float attackTime))) = true).
    apply has_sign_nonneg, fdiv_has_sign, fmul_has_sign, Hr.
  - unfold noteOff. rewrite Z.eqb_refl.
    change (fle (fdiv dm1_0 (fmul (sampleRate p) (double_of_float releaseTime))) d0_0 = true).
    apply has_sign_nonpos, fdiv_has_sign, fmul_has_sign, Hr.
Qed.

End SlopeDirection.

(** A sample rate of 48000. *)
Lemma note_slope_direction_witness :
  fle d0_0 (envSlope (@noteOn libm_example 60 100 p_example)) = true
  /\ fle (envSlope (noteOff (activeNote p_example) p_example)) d0_0 = true.
Proof. exact (@note_slope_direction libm_example 60 100 p_example eq_refl). Defined.

(** ** The scheduler on events in any order *)

Section SchedulerAnyOrder.
Context {S : Type}.
Variable render_ : Z -> Z -> S -> S.
Variable handleMIDI_ : byte -> byte -> byte -> S -> S.

Let logR := fun (n offset : Z) (log : list Action) => log ++ [Render n offset].
Let logH := fun (data0 data1 data2 : byte) (log : list Action) => log ++ [Midi data0 data1 data2].

(** One step of the loop for an event anywhere in the block: an event
    that is not ahead of the cursor is applied at once. *)
Lemma splitStep_calls_any (c : Z) (s : S) (log : list Action) (e : MidiMessageMetadata) :
  0 <= c < 2 ^ 31 -> 0 <= samplePosition e < 2 ^ 31 ->
  let acts := (if c <? samplePosition e then [Render (samplePosition e - c) c] else [])
                ++ midi_effect e in
  let c' := if c <? samplePosition e then samplePosition e else c in
  splitStep render_ handleMIDI_ (c, s) e
  = (c', fold_left (performWith render_ handleMIDI_) acts s)
  /\ splitStep logR logH (c, log) e = (c', log ++ acts).
Proof.
  intros Hc Hp acts c'. subst acts c'. unfold splitStep, midi_effect.
  rewrite (int_of_small (samplePosition e - c)) by lia.
  replace (0 <? samplePosition e - c) with (c <? samplePosition e)
    by (destruct (Z.ltb_spec c (samplePosition e)), (Z.ltb_spec 0 (samplePosition e - c)); lia).
  destruct (Z.ltb_spec c (samplePosition e)) as [Hlt | Hge].
  - rewrite (int_of_small (c + (samplePosition e - c))) by lia.
    replace (c + (samplePosition e - c)) with (samplePosition e) by lia.
    destruct (numBytes e <=? 3); cbn; unfold logR, logH;
      rewrite <- ?app_assoc; split; reflexivity.
  - destruct (numBytes e <=? 3); cbn; unfold logR, logH;
      rewrite ?app_nil_r; split; reflexivity.
Qed.

Lemma fold_splitStep_calls_any (N : Z) (events : list MidiMessageMetadata) :
  forall (c : Z) (s : S) (log : list Action),
  0 <= c <= N -> N < 2 ^ 31 -> in_block N events = true ->
  exists c' acts,
    fold_left (splitStep render_ handleMIDI_) events (c, s)
    = (c', fold_left (performWith render_ handleMIDI_) acts s)
    /\ fold_left (splitStep logR logH) events (c, log) = (c', log ++ acts)
    /\ c <= c' <= N
    /\ schedule N c events = acts ++ schedule N c' [].
Proof.
  induction events as [| e rest IH]; intros c s log Hc HN Hin.
  - exists c, []. cbn. rewrite app_nil_r. repeat split; lia.
  - unfold in_block in Hin. cbn [forallb] in Hin.
    apply andb_prop in Hin as [He Hin]. apply andb_prop in He as [He0 HeN].
    apply Z.leb_le in He0. apply Z.ltb_lt in HeN.
    destruct (splitStep_calls_any c s log e) as [E1 E2]; [lia | lia |].
    cbn [fold_left]. rewrite E1, E2.
    set (acts0 := (if c <? samplePosition e then [Render (samplePosition e - c) c] else [])
                    ++ midi_effect e) in *.
    set (c1 := if c <? samplePosition e then samplePosition e else c) in *.
    assert (Hc1 : c <= c1 <= N) by (subst c1; destruct (Z.ltb_spec c (samplePosition e)); lia).
    destruct (IH c1 (fold_left (performWith render_ handleMIDI_) acts0 s) (log ++ acts0))
      as (c' & acts & F1 & F2 & Hle & Hs); [lia | assumption | exact Hin |].
    exists c', (acts0 ++ acts). rewrite F1, F2, fold_left_app, <- app_assoc.
    repeat split; try lia.
    cbn [schedule]. subst acts0 c1.
    destruct (c <? samplePosition e); cbn [app]; rewrite Hs, <- app_assoc; reflexivity.
Qed.

(** The whole function makes the calls of [schedule], whatever the
    order of the time stamps. *)
Lemma splitBufferByEventsWith_schedule_any (N : Z) (events : list MidiMessageMetadata) (s : S) :
  0 <= N < 2 ^ 31 -> in_block N events = true ->
  splitBufferByEventsWith render_ handleMIDI_ N events s
  = (fold_left (performWith render_ handleMIDI_) (schedule N 0 events) s, [])
  /\ calls N events = schedule N 0 events.
Proof.
  intros HN Hin.
  destruct (fold_splitStep_calls_any N events 0 s [] ltac:(lia) (proj2 HN) Hin)
    as (c' & acts & F1 & F2 & Hle & Hs).
  unfold calls, splitBufferByEventsWith. fold logR logH. rewrite F1, F2, Hs.
  rewrite (int_of_small (N - c')) by lia.
  replace (0 <? N - c') with (c' <? N)
    by (destruct (Z.ltb_spec c' N), (Z.ltb_spec 0 (N - c')); lia).
  cbn [schedule app fst]. rewrite fold_left_app.
  destruct (c' <? N); cbn; rewrite ?app_nil_r; split; reflexivity.
Qed.

(** A property of the state that every call of [schedule] keeps holds at
    the end of the block. *)
Lemma schedule_invariant (I : S -> Prop) (N : Z) (events : list MidiMessageMetadata) :
  (forall n offset s, 0 < n -> 0 <= offset -> offset + n <= N ->
     I s -> I (render_ n offset s)) ->
  (forall e data0 data1 data2 s, In e events ->
     midi_effect e = [Midi data0 data1 data2] ->
     I s -> I (handleMIDI_ data0 data1 data2 s)) ->
  forall c s, 0 <= c <= N -> in_block N events = true -> I s ->
  I (fold_left (performWith render_ handleMIDI_) (schedule N c events) s).
Proof.
  intros HR. induction events as [| e rest IH]; intros HM c s Hc Hin Hs.
  - cbn [schedule]. destruct (Z.ltb_spec c N); [| exact Hs].
    cbn. apply HR; try lia. exact Hs.
  - unfold in_block in Hin. cbn [forallb] in Hin.
    apply andb_prop in Hin as [He Hin]. apply andb_prop in He as [He0 HeN].
    apply Z.leb_le in He0. apply Z.ltb_lt in HeN.
    assert (HM' : forall e' d0 d1 d2 s', In e' rest -> midi_effect e' = [Midi d0 d1 d2] ->
                    I s' -> I (handleMIDI_ d0 d1 d2 s'))
      by (intros e' d0 d1 d2 s' Hi; apply HM; now right).
    assert (Hm : forall s', I s' ->
                   I (fold_left (performWith render_ handleMIDI_) (midi_effect e) s')).
    { intros s' Hs'. pose proof (HM e) as HMe. unfold midi_effect in *.
      destruct (numBytes e <=? 3); [| exact Hs'].
      cbn. apply (HMe _ _ _ s' (or_introl eq_refl) eq_refl Hs'). }
    cbn [schedule]. destruct (Z.ltb_spec c (samplePosition e)) as [H | H].
    + cbn [fold_left]. rewrite fold_left_app.
      apply (IH HM'); [lia | exact Hin |]. apply Hm. cbn. apply HR; try lia. exact Hs.
    + rewrite fold_left_app. apply (IH HM'); [lia | exact Hin |]. now apply Hm.
Qed.

End SchedulerAnyOrder.

Section PartitionAnyOrder.

Lemma schedule_frames_any (N : Z) (events : list MidiMessageMetadata) :
  forall c, 0 <= c <= N -> in_block N events = true ->
  rendered_frames (schedule N c events) = frames c (Z.to_nat (N - c)).
Proof.
  induction events as [| e rest IH]; intros c Hc Hin.
  - cbn [schedule]. destruct (Z.ltb_spec c N) as [H | H].
    + cbn. now rewrite app_nil_r.
    + now replace (N - c) with 0 by lia.
  - unfold in_block in Hin. cbn [forallb] in Hin.
    apply andb_prop in Hin as [He Hin]. apply andb_prop in He as [He0 HeN].
    apply Z.leb_le in He0. apply Z.ltb_lt in HeN.
    cbn [schedule]. destruct (Z.ltb_spec c (samplePosition e)) as [H | H].
    + change (Render ?n ?o :: ?l) with ([Render n o] ++ l).
      rewrite !rendered_frames_app, rendered_frames_midi_effect, IH by (assumption || lia).
      cbn [rendered_frames flat_map app]. rewrite app_nil_r.
      replace (samplePosition e) with (c + Z.of_nat (Z.to_nat (samplePosition e - c))) at 2 by lia.
      rewrite frames_app. f_equal. lia.
    + rewrite rendered_frames_app, rendered_frames_midi_effect. apply IH; assumption || lia.
Qed.

Lemma schedule_spans (N : Z) (events : list MidiMessageMetadata) :
  forall c, 0 <= c <= N -> in_block N events = true ->
  forallb (span_in_block N) (schedule N c events) = true.
Proof.
  assert (Hm : forall e, forallb (span_in_block N) (midi_effect e) = true)
    by (intros e; unfold midi_effect; now destruct (numBytes e <=? 3)).
  induction events as [| e rest IH]; intros c Hc Hin.
  - cbn [schedule]. destruct (Z.ltb_spec c N) as [H | H]; [| reflexivity].
    cbn. rewrite andb_true_r. apply andb_true_intro. split; [apply andb_true_intro; split |].
    + apply Z.ltb_lt. lia.
    + apply Z.leb_le. lia.
    + apply Z.leb_le. lia.
  - unfold in_block in Hin. cbn [forallb] in Hin.
    apply andb_prop in Hin as [He Hin]. apply andb_prop in He as [He0 HeN].
    apply Z.leb_le in He0. apply Z.ltb_lt in HeN.
    cbn [schedule]. destruct (Z.ltb_spec c (samplePosition e)) as [H | H].
    + cbn [forallb]. rewrite forallb_app, Hm, IH by (assumption || lia).
      rewrite !andb_true_r. cbn. apply andb_true_intro. split; [apply andb_true_intro; split |].
      * apply Z.ltb_lt. lia.
      * apply Z.leb_le. lia.
      * apply Z.leb_le. lia.
    + rewrite forallb_app, Hm, IH by (assumption || lia). reflexivity.
Qed.

End PartitionAnyOrder.

Section EventSchedulerAnyOrder.
Context {libm : Libm}.

Let handle := fun (data0 data1 data2 : byte) (st : Processor * AudioBuffer) =>
  (handleMIDI data0 data1 data2 (fst st), snd st).

(** The partition of the block does not depend on the order of the time
    stamps: for events with offsets in [0, N) in any order, every frame
    of the block is rendered once and in order, every event is applied,
    in the order given (one that is not ahead of the cursor at once),
    every call of [render] is for at least one frame and for a span
    inside the block, and the calls are those of the scheduling
    algorithm. *)
Theorem splitBufferByEvents_any_order (buffer : AudioBuffer)
    (events : list MidiMessageMetadata) (p : Processor) :
  getNumSamples buffer < 2 ^ 31 ->
  in_block (getNumSamples buffer) events = true ->
  let N := getNumSamples buffer in
  splitBufferByEvents buffer events p = (fold_left perform (calls N events) (p, buffer), [])
  /\ rendered_frames (calls N events) = frames 0 (length (left buffer))
  /\ midi_calls (calls N events) = flat_map midi_effect events
  /\ forallb (span_in_block N) (calls N events) = true
  /\ calls N events = schedule N 0 events.
Proof.
  intros HN Hin N.
  assert (HN0 : 0 <= N < 2 ^ 31) by (unfold N, getNumSamples in *; lia).
  destruct (splitBufferByEventsWith_schedule_any render handle N events (p, buffer) HN0 Hin)
    as [E C].
  split; [| split; [| split; [| split]]].
  - unfold splitBufferByEvents. fold handle. fold N. rewrite E, C. reflexivity.
  - rewrite C, schedule_frames_any; try assumption; [| lia].
    f_equal. unfold N, getNumSamples. lia.
  - rewrite C. apply schedule_midi_calls.
  - rewrite C. apply schedule_spans; [lia | exact Hin].
  - exact C.
Qed.

End EventSchedulerAnyOrder.

(** A note-on at offset 2 followed by a note-off stamped 1: the note-off
    is applied at offset 2, right after the note-on, and the frames are
    rendered as [0, 2) and [2, 4). *)
Lemma splitBufferByEvents_any_order_witness :
  rendered_frames (calls 4 [note60_on 2; note60_off 1]) = [0; 1; 2; 3]
  /\ midi_calls (calls 4 [note60_on 2; note60_off 1]) = [Midi x90 x3c x64; Midi x80 x3c x00]
  /\ forallb (span_in_block 4) (calls 4 [note60_on 2; note60_off 1]) = true
  /\ calls 4 [note60_on 2; note60_off 1]
     = [Render 2 0; Midi x90 x3c x64; Midi x80 x3c x00; Render 2 2].
Proof.
  pose proof (@splitBufferByEvents_any_order libm_example block4
                [note60_on 2; note60_off 1] p_example eq_refl eq_refl) as (_ & F & M & S & C).
  split; [exact F | split; [exact M | split; [exact S | exact C]]].
Defined.

(** ** A whole block: [processBlock] *)

Section WholeBlockOutput.
Context {libm : Libm}.

Let handle := fun (data0 data1 data2 : byte) (st : Processor * AudioBuffer) =>
  (handleMIDI data0 data1 data2 (fst st), snd st).

Lemma forallb_firstn {A : Type} (f : A -> bool) (l : list A) :
  forall n, forallb f l = true -> forallb f (firstn n l) = true.
Proof.
  induction l as [| x l IH]; intros [| n] H; try reflexivity.
  cbn [forallb firstn] in *. apply andb_prop in H as [Hx Hl]. now rewrite Hx, IH.
Qed.

Lemma forallb_skipn {A : Type} (f : A -> bool) (l : list A) :
  forall n, forallb f l = true -> forallb f (skipn n l) = true.
Proof.
  induction l as [| x l IH]; intros [| n] H; try reflexivity; try exact H.
  cbn [forallb skipn] in *. apply andb_prop in H as [Hx Hl]. now apply IH.
Qed.

Lemma forallb_write_span (channel span : list float32) (offset : Z) :
  forallb in_range channel = true -> forallb in_range span = true ->
  forallb in_range (write_span channel offset span) = true.
Proof.
  intros Hc Hs. unfold write_span.
  now rewrite !forallb_app, forallb_firstn, Hs, forallb_skipn.
Qed.

Lemma forallb_zeros (n : nat) : forallb in_range (repeat f0_0 n) = true.
Proof. induction n as [| n IH]; [reflexivity | exact IH]. Qed.

(** [processBlock] is the scheduler run on the cleared buffer. *)
Lemma processBlock_schedule (buffer : AudioBuffer)
    (events : list MidiMessageMetadata) (p : Processor) :
  getNumSamples buffer < 2 ^ 31 ->
  in_block (getNumSamples buffer) events = true ->
  processBlock buffer events p
  = (fold_left (performWith render handle)
       (schedule (getNumSamples buffer) 0 events)
       (p, mkBuffer (repeat f0_0 (length (left buffer)))
             (option_map (fun c => repeat f0_0 (length c)) (right buffer))), []).
Proof.
  intros HN Hin. unfold processBlock, splitBufferByEvents, updateParameters.
  fold handle.
  assert (E : getNumSamples
                (mkBuffer (repeat f0_0 (length (left buffer)))
                   (option_map (fun c => repeat f0_0 (length c)) (right buffer)))
              = getNumSamples buffer)
    by (unfold getNumSamples; cbn [left]; now rewrite repeat_length).
  rewrite E.
  apply (splitBufferByEventsWith_schedule_any render handle); [| exact Hin].
  unfold getNumSamples in *. lia.
Qed.

(** One call of [render] on a buffer with both channels equal. *)
Lemma render_in_range (n offset : Z) (p : Processor) (b : AudioBuffer) (stereo : bool) :
  0 < n -> 0 <= offset -> offset + n <= getNumSamples b ->
  forallb in_range (left b) = true ->
  right b = (if stereo then Some (left b) else None) ->
  let b' := snd (render n offset (p, b)) in
  length (left b') = length (left b)
  /\ forallb in_range (left b') = true
  /\ right b' = (if stereo then Some (left b') else None).
Proof.
  intros Hn Ho Hle Hb Hr b'. subst b'. unfold render.
  pose proof (renderLoop_length (Z.to_nat n) p) as L.
  destruct (renderLoop (Z.to_nat n) p) as [p' outs]. cbn [snd] in L.
  destruct (guard_span (map float_of_double outs)) as (s & Es & Ls & Bs).
  rewrite length_map, L in Ls. unfold getNumSamples in Hle.
  cbn [snd left right]. rewrite Es. cbn [store_span].
  destruct (write_span_spec (left b) s offset Ho) as (W1 & _); [lia |].
  repeat split; [exact W1 | now apply forallb_write_span |].
  rewrite Hr. destruct stereo; cbn [option_map]; [| reflexivity].
  rewrite Es. reflexivity.
Qed.

(** For events anywhere in the block, [processBlock] leaves a buffer of
    the length it was given in which every sample has magnitude at most
    1.0 (none is NaN or infinite), whatever the buffer held before and
    whatever the voice and the C library's [sin] and [exp2] produce;
    with two channels the right one holds what the left one holds; and
    the MIDI buffer comes back empty. *)
Theorem processBlock_output_in_range (buffer : AudioBuffer)
    (events : list MidiMessageMetadata) (p : Processor) :
  getNumSamples buffer < 2 ^ 31 ->
  in_block (getNumSamples buffer) events = true ->
  channels_agree buffer = true ->
  let out := processBlock buffer events p in
  let b := snd (fst out) in
  snd out = []
  /\ length (left b) = length (left buffer)
  /\ forallb in_range (left b) = true
  /\ right b = option_map (fun _ => left b) (right buffer).
Proof.
  intros HN Hin Hch out b. subst b out.
  rewrite (processBlock_schedule buffer events p HN Hin). cbn [fst snd].
  split; [reflexivity |].
  set (stereo := match right buffer with Some _ => true | None => false end).
  set (I := fun st : Processor * AudioBuffer =>
              length (left (snd st)) = length (left buffer)
              /\ forallb in_range (left (snd st)) = true
              /\ right (snd st) = if stereo then Some (left (snd st)) else None).
  assert (G : I (fold_left (performWith render handle)
                   (schedule (getNumSamples buffer) 0 events)
                   (p, mkBuffer (repeat f0_0 (length (left buffer)))
                         (option_map (fun c => repeat f0_0 (length c)) (right buffer))))).
  { apply (schedule_invariant render handle I).
    - intros n offset [q b] Hn Ho Hle (I1 & I2 & I3). cbn [snd] in *.
      destruct (render_in_range n offset q b stereo Hn Ho) as (R1 & R2 & R3);
        try assumption.
      + unfold getNumSamples in *. lia.
      + unfold I. rewrite R1. now repeat split.
    - intros e d0 d1 d2 [q b] _ _ HI. exact HI.
    - unfold getNumSamples. lia.
    - exact Hin.
    - unfold I. cbn [snd left right]. repeat split.
      + apply repeat_length.
      + apply forallb_zeros.
      + unfold channels_agree in Hch. subst stereo.
        destruct (right buffer) as [r |]; [| reflexivity].
        cbn [option_map]. apply Nat.eqb_eq in Hch. now rewrite Hch. }
  destruct G as (G1 & G2 & G3). repeat split; try assumption.
  rewrite G3. subst stereo. now destruct (right buffer).
Qed.

Lemma firstn_repeat_le {A : Type} (x : A) (k n : nat) :
  (k <= n)%nat -> firstn k (repeat x n) = repeat x k.
Proof.
  revert n. induction k as [| k IH]; intros [| n] H; try reflexivity; [lia |].
  cbn [repeat firstn]. f_equal. apply IH. lia.
Qed.

Lemma skipn_repeat_le {A : Type} (x : A) (k n : nat) :
  skipn k (repeat x n) = repeat x (n - k).
Proof.
  revert n. induction k as [| k IH]; intros [| n]; try reflexivity.
  cbn [repeat skipn]. apply IH.
Qed.

Lemma write_span_zeros (offset : Z) (n len : nat) :
  0 <= offset -> (Z.to_nat offset + n <= len)%nat ->
  write_span (repeat f0_0 len) offset (repeat f0_0 n) = repeat f0_0 len.
Proof.
  intros Ho Hle. unfold write_span.
  rewrite firstn_repeat_le by lia. rewrite skipn_repeat_le, repeat_length.
  rewrite <- !repeat_app. f_equal. lia.
Qed.

Lemma byte_val_nonneg (b : byte) : 0 <= byte_val b.
Proof. unfold byte_val. lia. Qed.

(** An event that does not start a note leaves a silent voice silent. *)
Lemma handleMIDI_silent (e : MidiMessageMetadata) (data0 data1 data2 : byte) (p : Processor) :
  midi_effect e = [Midi data0 data1 data2] -> starts_note e = false ->
  silent p = true -> silent (handleMIDI data0 data1 data2 p) = true.
Proof.
  intros Hm Hst Hs. unfold midi_effect in Hm.
  destruct (numBytes e <=? 3); [| discriminate]. injection Hm as <- <- <-.
  assert (Hoff : forall note, silent (noteOff note p) = true).
  { intros note. unfold noteOff. destruct (activeNote p =? note); [| exact Hs].
    unfold silent in *. apply andb_prop in Hs as [_ He]. exact He. }
  rewrite handleMIDI_dispatch.
  destruct (status_nibble (data_at e 0) =? 128); [apply Hoff |].
  destruct (status_nibble (data_at e 0) =? 144) eqn:E9; [| exact Hs].
  destruct (numBytes e =? 3) eqn:E3; [| apply Hoff].
  destruct (0 <? byte_val (data_at e 2)) eqn:Ev; [| apply Hoff].
  unfold starts_note in Hst. rewrite E3, E9, Ev in Hst. cbn [andb] in Hst.
  apply Z.ltb_ge in Hst. pose proof (byte_val_nonneg (data_at e 1)) as Hb.
  replace (2 <=? numBytes e) with true
    by (symmetry; apply Z.leb_le; apply Z.eqb_eq in E3; lia).
  replace (byte_val (data_at e 1)) with 0 by lia.
  unfold silent in *. apply andb_prop in Hs as [_ He]. exact He.
Qed.

(** A voice that makes no sound stays that way through a block in which
    no event starts a note: neither note-offs, nor other messages, nor
    note-ons of fewer than three bytes or with velocity 0, nor a note-on
    for note 0 make it sound.  The buffer comes out all zeros. *)
Theorem silent_block_stays_silent (buffer : AudioBuffer)
    (events : list MidiMessageMetadata) (p : Processor) :
  getNumSamples buffer < 2 ^ 31 ->
  in_block (getNumSamples buffer) events = true ->
  channels_agree buffer = true ->
  silent p = true ->
  forallb (fun e => negb (starts_note e)) events = true ->
  let out := processBlock buffer events p in
  silent (fst (fst out)) = true
  /\ snd (fst out)
     = mkBuffer (repeat f0_0 (length (left buffer)))
         (option_map (fun _ => repeat f0_0 (length (left buffer))) (right buffer)).
Proof.
  intros HN Hin Hch Hs Hev out. subst out.
  rewrite (processBlock_schedule buffer events p HN Hin). cbn [fst snd].
  set (zeros := mkBuffer (repeat f0_0 (length (left buffer)))
                  (option_map (fun _ => repeat f0_0 (length (left buffer))) (right buffer))).
  assert (Ez : mkBuffer (repeat f0_0 (length (left buffer)))
                 (option_map (fun c => repeat f0_0 (length c)) (right buffer)) = zeros).
  { unfold zeros, channels_agree in *. destruct (right buffer) as [r |]; [| reflexivity].
    cbn [option_map]. apply Nat.eqb_eq in Hch. now rewrite Hch. }
  rewrite Ez.
  set (I := fun st : Processor * AudioBuffer => silent (fst st) = true /\ snd st = zeros).
  assert (G : I (fold_left (performWith render handle)
                   (schedule (getNumSamples buffer) 0 events) (p, zeros))).
  { apply (schedule_invariant render handle I).
    - intros n offset [q b] Hn Ho Hle [I1 I2]. cbn [fst snd] in *. subst b.
      rewrite (render_silent n offset q zeros I1). unfold I. cbn [fst snd].
      split; [exact I1 |]. unfold zeros. cbn [left right].
      unfold getNumSamples in Hle.
      rewrite write_span_zeros by lia.
      destruct (right buffer); [| reflexivity]. cbn [option_map].
      rewrite write_span_zeros by lia. reflexivity.
    - intros e d0 d1 d2 [q b] Hi Hm [I1 I2]. unfold I, handle. cbn [fst snd] in *.
      split; [| exact I2].
      apply (handleMIDI_silent e); try assumption.
      rewrite forallb_forall in Hev. specialize (Hev e Hi).
      now destruct (starts_note e).
    - unfold getNumSamples. lia.
    - exact Hin.
    - now split. }
  exact G.
Qed.

End WholeBlockOutput.

(** The stereo example block, with note 60 struck at offset 2 and a
    note-off stamped 1. *)
Lemma processBlock_output_in_range_witness :
  forallb in_range
    (left (snd (fst (@processBlock libm_example stereo4 [note60_on 2; note60_off 1] p_example))))
  = true.
Proof.
  destruct (@processBlock_output_in_range libm_example stereo4
              [note60_on 2; note60_off 1] p_example) as (_ & _ & H & _);
    [reflexivity | reflexivity | reflexivity | exact H].
Defined.

(** After [prepareToPlay], a note-on for note 0 and the note-off of note
    60: the block comes out as zeros. *)
Lemma silent_block_stays_silent_witness :
  snd (fst (@processBlock libm_example stereo4 [note0_on 1; note60_off 2]
              (prepareToPlay Cli.d48000 p_example)))
  = mkBuffer [f0_0; f0_0; f0_0; f0_0] (Some [f0_0; f0_0; f0_0; f0_0]).
Proof.
  destruct (@silent_block_stays_silent libm_example stereo4 [note0_on 1; note60_off 2]
              (prepareToPlay Cli.d48000 p_example)) as (_ & H);
    [reflexivity | reflexivity | reflexivity | reflexivity | reflexivity | exact H].
Defined.

(** ** A session: the envelope over any number of blocks *)

Section Session.
Context {libm : Libm}.

Let handle := fun (data0 data1 data2 : byte) (st : Processor * AudioBuffer) =>
  (handleMIDI data0 data1 data2 (fst st), snd st).

Lemma envelope_ok_inv (p : Processor) :
  envelope_ok p = true ->
  in_unit_interval (env p) = true /\ isnan (sampleRate p) = false
  /\ (silent p = true \/ isnan (envSlope p) = false).
Proof.
  unfold envelope_ok. intros H. apply andb_prop in H as [H H3].
  apply andb_prop in H as [H1 H2]. apply negb_true_iff in H2.
  repeat split; try assumption.
  apply orb_prop in H3 as [H3 | H3]; [now left | right; now apply negb_true_iff].
Qed.

Lemma envelope_ok_intro (p : Processor) :
  in_unit_interval (env p) = true -> isnan (sampleRate p) = false ->
  isnan (envSlope p) = false -> envelope_ok p = true.
Proof.
  intros H1 H2 H3. unfold envelope_ok. now rewrite H1, H2, H3, orb_true_r.
Qed.

Lemma renderFrame_envelope_ok (p : Processor) :
  envelope_ok p = true -> envelope_ok (fst (renderFrame p)) = true.
Proof.
  intros H. destruct (envelope_ok_inv p H) as (H1 & H2 & H3).
  unfold renderFrame. change (double_of_float f0_0) with d0_0.
  destruct ((0 <? activeNote p) || fgt (env p) d0_0) eqn:G; [| exact H].
  assert (Hs : isnan (envSlope p) = false).
  { destruct H3 as [H3 | H3]; [| exact H3].
    unfold silent in H3. apply andb_prop in H3 as [Hn He].
    apply Z.eqb_eq in Hn. pose proof (feq_zero_not_gt _ He) as K.
    change (double_of_float f0_0) with d0_0 in K. rewrite Hn, K in G. discriminate. }
  unfold processSample. cbv zeta. cbn [ENABLE_ENVELOPE fst].
  apply envelope_ok_intro; cbn [env envSlope sampleRate set_env set_phase];
    try assumption.
  now apply envelope_step_in_unit_interval.
Qed.

Lemma renderLoop_envelope_ok (n : nat) :
  forall p, envelope_ok p = true -> envelope_ok (fst (renderLoop n p)) = true.
Proof.
  induction n as [| n IH]; intros p H; [exact H |].
  cbn [renderLoop]. pose proof (renderFrame_envelope_ok p H) as F.
  destruct (renderFrame p) as [p1 o]. cbn [fst] in F. specialize (IH p1 F).
  now destruct (renderLoop n p1) as [p2 os].
Qed.

Lemma render_processor (n offset : Z) (p : Processor) (b : AudioBuffer) :
  fst (render n offset (p, b)) = fst (renderLoop (Z.to_nat n) p).
Proof. unfold render. now destruct (renderLoop (Z.to_nat n) p). Qed.

Lemma handleMIDI_envelope_ok (data0 data1 data2 : byte) (p : Processor) :
  envelope_ok p = true -> envelope_ok (handleMIDI data0 data1 data2 p) = true.
Proof.
  intros H. destruct (envelope_ok_inv p H) as (H1 & H2 & H3).
  assert (Hoff : forall note, envelope_ok (noteOff note p) = true).
  { intros note. unfold noteOff. destruct (activeNote p =? note); [| exact H].
    apply envelope_ok_intro; cbn [env envSlope sampleRate set_envSlope set_activeNote];
      try assumption.
    apply fdiv_finite_not_nan; [now eexists _, _, _ |].
    apply fmul_finite_not_nan; [exact H2 | now eexists _, _, _]. }
  assert (Hon : forall note velocity, envelope_ok (noteOn note velocity p) = true).
  { intros note velocity. apply envelope_ok_intro; try assumption.
    change (isnan (fdiv d1_0 (fmul (sampleRate p) (double_of_float attackTime))) = false).
    apply fdiv_finite_not_nan; [now eexists _, _, _ |].
    apply fmul_finite_not_nan; [exact H2 | now eexists _, _, _]. }
  rewrite handleMIDI_dispatch.
  destruct (status_nibble data0 =? 128); [apply Hoff |].
  destruct (status_nibble data0 =? 144); [| exact H].
  destruct (0 <? byte_val data2); [apply Hon | apply Hoff].
Qed.

Lemma processBlock_envelope_ok (blk : AudioBuffer * list MidiMessageMetadata)
    (p : Processor) :
  block_ok blk = true -> envelope_ok p = true ->
  envelope_ok (fst (fst (processBlock (fst blk) (snd blk) p))) = true.
Proof.
  intros Hb Hp. unfold block_ok in Hb. apply andb_prop in Hb as [HN Hin].
  apply Z.ltb_lt in HN.
  rewrite (processBlock_schedule (fst blk) (snd blk) p HN Hin). cbn [fst].
  apply (schedule_invariant render handle (fun st => envelope_ok (fst st) = true)).
  - intros n offset [q b] _ _ _ Hq. cbn [fst] in *.
    rewrite render_processor. now apply renderLoop_envelope_ok.
  - intros e d0 d1 d2 [q b] _ _ Hq. unfold handle. cbn [fst] in *.
    now apply handleMIDI_envelope_ok.
  - unfold getNumSamples. lia.
  - exact Hin.
  - exact Hp.
Qed.

(** Once [prepareToPlay] has been called with a sample rate that is a
    number, the envelope stays in order through any number of blocks,
    whatever events they carry: after every block the level is in
    [0, 1]. *)
Theorem envelope_in_order_for_session (sampleRate_ : double) (p : Processor)
    (blocks : list (AudioBuffer * list MidiMessageMetadata)) :
  isnan sampleRate_ = false -> forallb block_ok blocks = true ->
  let q := play blocks (prepareToPlay sampleRate_ p) in
  envelope_ok q = true /\ in_unit_interval (env q) = true.
Proof.
  intros Hr Hb q.
  assert (G : envelope_ok q = true).
  { subst q. unfold play.
    assert (H0 : envelope_ok (prepareToPlay sampleRate_ p) = true).
    { unfold envelope_ok. cbn. now rewrite Hr. }
    revert H0. generalize (prepareToPlay sampleRate_ p) as p0.
    induction blocks as [| blk rest IH]; intros p0 H0; [exact H0 |].
    cbn [forallb] in Hb. apply andb_prop in Hb as [Hb1 Hb2].
    cbn [fold_left]. apply (IH Hb2). now apply processBlock_envelope_ok. }
  split; [exact G |]. now destruct (envelope_ok_inv q G).
Qed.

End Session.

(** Two blocks: note 60 struck in the first and released in the second. *)
Lemma envelope_in_order_for_session_witness :
  in_unit_interval
    (env (@play libm_example [(stereo4, [note60_on 1]); (block4, [note60_off 2])]
            (prepareToPlay Cli.d48000 p_example))) = true.
Proof.
  destruct (@envelope_in_order_for_session libm_example Cli.d48000 p_example
              [(stereo4, [note60_on 1]); (block4, [note60_off 2])]) as (_ & H);
    [reflexivity | reflexivity | exact H].
Defined.

(** ** Splitting a block does not change the voice *)

Section SplitTransparency.
Context {libm : Libm}.

Let handle := fun (data0 data1 data2 : byte) (st : Processor * AudioBuffer) =>
  (handleMIDI data0 data1 data2 (fst st), snd st).

(** Frames rendered in two runs are the frames rendered in one. *)
Lemma renderLoop_app (n m : nat) :
  forall p, renderLoop (n + m) p
            = (fst (renderLoop m (fst (renderLoop n p))),
               snd (renderLoop n p) ++ snd (renderLoop m (fst (renderLoop n p)))).
Proof.
  induction n as [| n IH]; intros p.
  - cbn [Nat.add renderLoop fst snd app]. now destruct (renderLoop m p).
  - cbn [Nat.add renderLoop]. destruct (renderFrame p) as [p1 o].
    rewrite (IH p1). destruct (renderLoop n p1) as [p2 os]. cbn [fst snd].
    now destruct (renderLoop m p2).
Qed.

Lemma ignored_midi_effect (e : MidiMessageMetadata) (st : Processor * AudioBuffer) :
  ignored e = true ->
  fold_left (performWith render handle) (midi_effect e) st = st.
Proof.
  intros H. unfold midi_effect. destruct (Z.leb_spec (numBytes e) 3) as [Hle | Hgt];
    [| reflexivity].
  unfold ignored in H. replace (3 <? numBytes e) with false in H
    by (symmetry; apply Z.ltb_ge; exact Hle).
  cbn [orb] in H. apply andb_prop in H as [H8 H9].
  apply negb_true_iff in H8, H9.
  cbn [fold_left performWith]. unfold handle. rewrite handleMIDI_dispatch, H8, H9.
  now destruct st.
Qed.

Lemma schedule_ignored (N : Z) (events : list MidiMessageMetadata) :
  forall c q b, 0 <= c <= N -> in_block N events = true ->
  forallb ignored events = true ->
  fst (fold_left (performWith render handle) (schedule N c events) (q, b))
  = fst (renderLoop (Z.to_nat (N - c)) q).
Proof.
  induction events as [| e rest IH]; intros c q b Hc Hin Hig.
  - cbn [schedule]. destruct (Z.ltb_spec c N) as [H | H].
    + cbn [fold_left performWith]. apply render_processor.
    + now replace (N - c) with 0 by lia.
  - unfold in_block in Hin. cbn [forallb] in Hin, Hig.
    apply andb_prop in Hin as [He Hin]. apply andb_prop in He as [He0 HeN].
    apply Z.leb_le in He0. apply Z.ltb_lt in HeN. apply andb_prop in Hig as [Hie Hig].
    cbn [schedule]. destruct (Z.ltb_spec c (samplePosition e)) as [H | H].
    + cbn [fold_left performWith]. rewrite fold_left_app, ignored_midi_effect by exact Hie.
      destruct (render (samplePosition e - c) c (q, b)) as [q1 b1] eqn:R.
      rewrite (IH (samplePosition e) q1 b1) by (assumption || lia).
      assert (Eq : q1 = fst (renderLoop (Z.to_nat (samplePosition e - c)) q))
        by (rewrite <- render_processor with (offset := c) (b := b); now rewrite R).
      replace (Z.to_nat (N - c))
        with (Z.to_nat (samplePosition e - c) + Z.to_nat (N - samplePosition e))%nat by lia.
      rewrite renderLoop_app. cbn [fst]. now rewrite Eq.
    + rewrite fold_left_app, ignored_midi_effect by exact Hie.
      apply IH; assumption || lia.
Qed.

(** Events that [handleMIDI] ignores split the block into spans but do
    not change the voice: after the block the processor is in the state
    that rendering all its frames in one run leaves. *)
Theorem ignored_events_leave_voice (buffer : AudioBuffer)
    (events : list MidiMessageMetadata) (p : Processor) :
  getNumSamples buffer < 2 ^ 31 ->
  in_block (getNumSamples buffer) events = true ->
  forallb ignored events = true ->
  fst (fst (processBlock buffer events p))
  = fst (renderLoop (length (left buffer)) p)
  /\ fst (fst (processBlock buffer events p)) = fst (fst (processBlock buffer [] p)).
Proof.
  intros HN Hin Hig.
  assert (E : forall evs, in_block (getNumSamples buffer) evs = true ->
                forallb ignored evs = true ->
                fst (fst (processBlock buffer evs p))
                = fst (renderLoop (length (left buffer)) p)).
  { intros evs Hin' Hig'. rewrite (processBlock_schedule buffer evs p HN Hin'). cbn [fst].
    fold handle. rewrite (schedule_ignored (getNumSamples buffer) evs 0); try assumption.
    - f_equal. f_equal. unfold getNumSamples. lia.
    - unfold getNumSamples. lia. }
  split; [now apply E |]. rewrite (E events Hin Hig). symmetry. now apply E.
Qed.

End SplitTransparency.

(** A system-exclusive message of five bytes at offset 2 of the example
    block. *)
Lemma ignored_events_leave_voice_witness :
  fst (fst (@processBlock libm_example block4 [mkMidi 2 [xf0; x01; x02; x03; xf7]] p_example))
  = fst (@renderLoop libm_example 4 p_example).
Proof.
  exact (proj1 (@ignored_events_leave_voice libm_example block4
                  [mkMidi 2 [xf0; x01; x02; x03; xf7]] p_example eq_refl eq_refl eq_refl)).
Defined.

(** ** The amplitude set by a note-on *)

Section Amplitude.
Context {libm : Libm}.

Lemma forall_velocity (P : Z -> bool) (hi : nat) :
  forallb (fun k => P (Z.of_nat k)) (seq 0 (Datatypes.S hi)) = true ->
  forall v, 0 <= v <= Z.of_nat hi -> P v = true.
Proof.
  intros H v Hv. rewrite forallb_forall in H.
  specialize (H (Z.to_nat v)). rewrite Z2Nat.id in H by lia.
  apply H, in_seq. lia.
Qed.

(** For every velocity a MIDI data byte can carry, 1 to 127, the
    amplitude set by [noteOn] is above zero and at most 0.5; a byte
    above 127, which [handleMIDI] passes on as it is, gives an amplitude
    above 0.5. *)
Theorem noteOn_amplitude_headroom (note velocity : Z) (p : Processor) :
  1 <= velocity <= 255 ->
  let a := amplitude (noteOn note velocity p) in
  flt d0_0 a = true
  /\ (velocity <= 127 -> fle a d0_5 = true)
  /\ (127 < velocity -> flt d0_5 a = true).
Proof.
  intros Hv a. subst a.
  change (amplitude (noteOn note velocity p))
    with (fmul (fdiv (double_of_int velocity) d127_0) d0_5).
  set (amp := fun v => fmul (fdiv (double_of_int v) d127_0) d0_5).
  change (fmul (fdiv (double_of_int velocity) d127_0) d0_5) with (amp velocity).
  assert (H : (negb (1 <=? velocity)
               || (flt d0_0 (amp velocity)
                   && (if velocity <=? 127 then fle (amp velocity) d0_5
                       else flt d0_5 (amp velocity)))) = true).
  { apply (forall_velocity
             (fun v => negb (1 <=? v)
                       || (flt d0_0 (amp v)
                           && (if v <=? 127 then fle (amp v) d0_5 else flt d0_5 (amp v))))
             255); [vm_compute; reflexivity | lia]. }
  replace (1 <=? velocity) with true in H by (symmetry; apply Z.leb_le; lia).
  cbn [negb orb] in H. apply andb_prop in H as [H1 H2].
  split; [exact H1 |]. split; intros K.
  - replace (velocity <=? 127) with true in H2 by (symmetry; apply Z.leb_le; lia).
    exact H2.
  - replace (velocity <=? 127) with false in H2 by (symmetry; apply Z.leb_gt; lia).
    exact H2.
Qed.

End Amplitude.

(** Velocity 100. *)
Lemma noteOn_amplitude_headroom_witness :
  fle (amplitude (@noteOn libm_example 60 100 p_example)) d0_5 = true.
Proof.
  destruct (@noteOn_amplitude_headroom libm_example 60 100 p_example) as (_ & H & _);
    [lia | apply H; lia].
Defined.

(** ** The oscillator of the command-line program *)

Section CliOscillator.
Context {libm : Libm}.

(** Over the whole fill loop of [main] the phase stays a well-formed
    double in [0, 2 pi], and the settings and the increment are left as
    they are. *)
Theorem fillLoop_phase_within_two_pi (n : nat) (g : Cli.Globals) :
  valid_binary (Cli.phase g) = true -> valid_binary (Cli.inc g) = true ->
  within_two_pi (Cli.phase g) = true -> within_two_pi (Cli.inc g) = true ->
  let g' := fst (Cli.fillLoop n g) in
  valid_binary (Cli.phase g') = true /\ within_two_pi (Cli.phase g') = true
  /\ Cli.inc g' = Cli.inc g /\ Cli.amplitude g' = Cli.amplitude g
  /\ Cli.frequency g' = Cli.frequency g /\ Cli.sampleRate g' = Cli.sampleRate g
  /\ length (snd (Cli.fillLoop n g)) = n.
Proof.
  revert g. induction n as [| n IH]; intros g Vp Vi Hp Hi; [now repeat split |].
  cbn [Cli.fillLoop].
  destruct (advance_within_two_pi (Cli.phase g) (Cli.inc g) Vp Vi Hp Hi) as [A B].
  unfold Cli.processSample. cbv zeta.
  fold (advance (Cli.phase g) (Cli.inc g)).
  specialize (IH (Cli.set_phase (advance (Cli.phase g) (Cli.inc g)) g) A Vi B Hi).
  destruct (Cli.fillLoop n (Cli.set_phase (advance (Cli.phase g) (Cli.inc g)) g))
    as [g2 rest].
  cbn [fst snd length] in *. destruct IH as (I1 & I2 & I3 & I4 & I5 & I6 & I7).
  repeat split; try assumption. now rewrite I7.
Qed.

End CliOscillator.

(** The program's own settings, four samples. *)
Lemma fillLoop_phase_within_two_pi_witness :
  within_two_pi
    (Cli.phase (fst (@Cli.fillLoop libm_example 4 (Cli.startSound (Cli.reset Cli.initial)))))
  = true.
Proof.
  apply (@fillLoop_phase_within_two_pi libm_example 4 (Cli.startSound (Cli.reset Cli.initial)));
    reflexivity.
Defined.
